(** * MiniFS: a shallow embedding of the in-memory file system

    The model follows [MiniFS] as written in the latest variant of the
    sources (the class with [_writeFile] and [writeFileWithCallback]); the
    older [writeFile] of [src/index.ts], which builds the [File] directly,
    is embedded too as [writeFile_index].

    Modelling choices:
    - A [DirectoryContent] (a plain JS object used as a map) is an
      association list in insertion order.  [k in dir.content] is own-key
      lookup: keys inherited from [Object.prototype] ([toString],
      [__proto__], ...) are outside the model.
    - [Object.keys] / [Object.entries] list array-index keys ("0", "1",
      ...) in ascending numeric order first, then the other keys in
      insertion order; [object_order] does exactly that.
    - The opaque [content] of a file is [option C]: [None] is [undefined]
      (the [== undefined] test of [readFile]); the opaque [data] slot is
      [option D].
    - A call either returns a value or throws; [outcome] records which.
      Stores are values: every operation returns the new store next to
      its outcome, so partial mutation before a throw is kept. *)

From Stdlib Require Import String Ascii List Bool NArith Lia.
Import ListNotations.
Open Scope string_scope.
Open Scope list_scope.
Set Warnings "-register-all".

(** ** Object keys *)

Definition digit_value (a : ascii) : option N :=
  let n := N_of_ascii a in
  if ((48 <=? n) && (n <=? 57))%N then Some (n - 48)%N else None.

Fixpoint digits_value (s : string) (acc : N) : option N :=
  match s with
  | EmptyString => Some acc
  | String a rest =>
      match digit_value a with
      | Some d => digits_value rest (acc * 10 + d)%N
      | None => None
      end
  end.

(** A property key is an array index when it is the canonical decimal
    form of an integer below 2^32 - 1. *)
Definition array_index (s : string) : option N :=
  match s with
  | EmptyString => None
  | String a rest =>
      if Ascii.eqb a "0" then
        match rest with EmptyString => Some 0%N | _ => None end
      else
        match digits_value s 0 with
        | Some n => if (n <? 4294967295)%N then Some n else None
        | None => None
        end
  end.

Section ObjectOrder.
Context {A : Type}.

Fixpoint insert_by_index (n : N) (kv : string * A)
    (l : list (N * (string * A))) : list (N * (string * A)) :=
  match l with
  | [] => [(n, kv)]
  | (m, kv') :: rest =>
      if (n <? m)%N then (n, kv) :: (m, kv') :: rest
      else (m, kv') :: insert_by_index n kv rest
  end.

Fixpoint index_keyed (m : list (string * A)) : list (N * (string * A)) :=
  match m with
  | [] => []
  | (k, v) :: rest =>
      match array_index k with
      | Some n => insert_by_index n (k, v) (index_keyed rest)
      | None => index_keyed rest
      end
  end.

Definition non_index (m : list (string * A)) : list (string * A) :=
  filter (fun kv => match array_index (fst kv) with
                    | Some _ => false | None => true end) m.

(** The own-property enumeration order of [Object.keys] and
    [Object.entries]. *)
Definition object_order (m : list (string * A)) : list (string * A) :=
  map snd (index_keyed m) ++ non_index m.

Definition object_keys (m : list (string * A)) : list string :=
  map fst (object_order m).

(** [k in m] / [m[k]] *)
Fixpoint lookup (k : string) (m : list (string * A)) : option A :=
  match m with
  | [] => None
  | (k', v) :: rest => if String.eqb k k' then Some v else lookup k rest
  end.

(** [m[k] = v]: an existing key keeps its place, a new key goes last. *)
Fixpoint set (k : string) (v : A) (m : list (string * A))
    : list (string * A) :=
  match m with
  | [] => [(k, v)]
  | (k', v') :: rest =>
      if String.eqb k k' then (k', v) :: rest else (k', v') :: set k v rest
  end.

(** [delete m[k]] *)
Fixpoint delete (k : string) (m : list (string * A)) : list (string * A) :=
  match m with
  | [] => []
  | (k', v') :: rest =>
      if String.eqb k k' then rest else (k', v') :: delete k rest
  end.
End ObjectOrder.

(** ** Paths *)

(** [path.split("/")]: a literal split, every ["/"] ends a segment. *)
Fixpoint split_slash (s : string) : list string :=
  match s with
  | EmptyString => [""]
  | String ch rest =>
      let l := split_slash rest in
      if Ascii.eqb ch "/" then "" :: l
      else match l with
           | hd :: tl => String ch hd :: tl
           | [] => [String ch ""]
           end
  end.

Definition PathSegments := list string.

Inductive Path :=
| PStr (s : string)
| PSegs (segs : PathSegments).

Definition rootPath : Path := PSegs [].

Definition pathAsSegments (path : Path) : PathSegments :=
  match path with
  | PStr s => split_slash s
  | PSegs segs => segs
  end.

(** [`${path}`]: an array is printed joined with commas. *)
Definition path_to_string (path : Path) : string :=
  match path with
  | PStr s => s
  | PSegs segs => String.concat "," segs
  end.

(** ** Errors and options *)

Inductive error_kind :=
| DoesNotExist
| IsAFile
| IsADirectory
| HasNoContent
| IntermediateDoesNotExist
| IntermediateIsAFile
| NotADirectoryRoot.

(** [new Error(`[fn] ...`)]: the function named in the message, the kind
    of message and the path or segment it quotes. *)
Record js_error := Error {
  err_fn : string;
  err_kind : error_kind;
  err_subject : string
}.

(** A call returns a value or throws. *)
Inductive outcome (A : Type) :=
| Return (a : A)
| Throw (e : js_error).
Arguments Return {A} a.
Arguments Throw {A} e.

(** An optional property of an options object: absent, explicitly
    [undefined], or set. *)
Inductive jsprop (A : Type) :=
| Absent
| Undefined
| Defined (a : A).
Arguments Absent {A}.
Arguments Undefined {A}.
Arguments Defined {A} a.

Record MiniFSOptions := { preferErrors_opt : jsprop bool }.
Record ReadOptions := { returnEntry_opt : jsprop bool }.
Record WriteOptions := { recursive_opt : jsprop bool }.

(** [{ key: dflt, ...options }] for one key. *)
Definition spread_over {A : Type} (dflt : A) (p : option (jsprop A))
    : jsprop A :=
  match p with
  | None | Some Absent => Defined dflt
  | Some q => q
  end.

(** [if (x)] for a boolean-typed option. *)
Definition truthy (p : jsprop bool) : bool :=
  match p with Defined true => true | _ => false end.

Definition defaultReadOptions_returnEntry := false.
Definition defaultWriteOptions_recursive := true.

Definition returnEntry_of (options : option ReadOptions) : bool :=
  truthy (spread_over defaultReadOptions_returnEntry
            (option_map returnEntry_opt options)).

Definition recursive_of (options : option WriteOptions) : bool :=
  truthy (spread_over defaultWriteOptions_recursive
            (option_map recursive_opt options)).

(** ** Nodes and the store *)

Section MiniFS.
(** [TFileContent] and [TData]. *)
Context {C D : Type}.

Record file := mkFile {
  fname : string;
  fcontent : option C;
  fdata : option D
}.

Inductive entry :=
| File (f : file)
| Directory (dname : string) (dcontent : list (string * entry))
    (ddata : option D).

Definition DirectoryContent := list (string * entry).

Definition isFile (e : entry) : bool :=
  match e with File _ => true | Directory _ _ _ => false end.

Definition isDirectory (e : entry) : bool :=
  match e with File _ => false | Directory _ _ _ => true end.

(** [new File(name)] and [new Directory(name)]. *)
Definition new_File (name : string) : file := mkFile name None None.
Definition new_Directory (name : string) : entry := Directory name [] None.

Record MiniFS := mkMiniFS {
  files : entry;
  preferErrors : bool
}.

(** [new MiniFS(options)] *)
Definition new_MiniFS (options : option MiniFSOptions) : MiniFS :=
  {| files := Directory "" [] None;
     preferErrors :=
       match option_map preferErrors_opt options with
       | Some (Defined b) => b
       | _ => false
       end |}.

(** The operations below that mutate [this.files] start from
    [let dir = this.files], whose declared type is [Directory]: they
    update its content and rebuild the root around it.  No operation
    ever stores anything but a [Directory] in [files], so the [File]
    branch is never taken. *)
Definition with_root {A : Type} (fs : MiniFS)
    (body : DirectoryContent -> DirectoryContent * outcome A)
    : MiniFS * outcome A :=
  match files fs with
  | Directory n c d =>
      let (c', r) := body c in
      ({| files := Directory n c' d; preferErrors := preferErrors fs |}, r)
  | File _ =>
      (fs, Throw (Error "MiniFS" NotADirectoryRoot ""))
  end.

(** *** [createDirectory] *)

Fixpoint createDirectory_loop (pe recursive : bool) (c : DirectoryContent)
    (path : PathSegments) : DirectoryContent * outcome bool :=
  match path with
  | [] => (c, Return true)
  | pathSegment :: rest =>
      let step (c1 : DirectoryContent) (nextEntry : entry) :=
        match nextEntry with
        | File _ =>
            if pe then
              (c1, Throw (Error "MiniFS.createDirectory" IsAFile pathSegment))
            else (c1, Return false)
        | Directory n c' d =>
            let (c'', r) := createDirectory_loop pe recursive c' rest in
            (set pathSegment (Directory n c'' d) c1, r)
        end in
      match lookup pathSegment c with
      | None =>
          if recursive then
            let nd := new_Directory pathSegment in
            step (set pathSegment nd c) nd
          else if pe then
            (c, Throw (Error "MiniFS.createDirectory" DoesNotExist pathSegment))
          else (c, Return false)
      | Some nextEntry => step c nextEntry
      end
  end.

Definition createDirectory (fs : MiniFS) (path : Path)
    (options : option WriteOptions) : MiniFS * outcome bool :=
  let segs := pathAsSegments path in
  let recursive :=
    truthy (spread_over true (option_map recursive_opt options)) in
  with_root fs (fun c => createDirectory_loop (preferErrors fs) recursive c segs).

(** *** [readEntry], [readDirectory], [readFile] *)

Fixpoint readEntry_loop (pe : bool) (fullpath : PathSegments)
    (ent : entry) (path : PathSegments) : outcome (option entry) :=
  match path with
  | [] => Return (Some ent)
  | pathSegment :: rest =>
      match ent with
      | File _ =>
          if pe then
            Throw (Error "MiniFS.readEntry" IntermediateIsAFile
                     (String.concat "," fullpath))
          else Return None
      | Directory _ c _ =>
          match lookup pathSegment c with
          | None =>
              if pe then
                Throw (Error "MiniFS.readEntry" IntermediateDoesNotExist
                         pathSegment)
              else Return None
          | Some e => readEntry_loop pe fullpath e rest
          end
      end
  end.

Definition readEntry (fs : MiniFS) (path : Path) : outcome (option entry) :=
  let segs := pathAsSegments path in
  readEntry_loop (preferErrors fs) segs (files fs) segs.

(** What [readDirectory] returns when it does not return [null]. *)
Inductive dir_result :=
| DirNames (names : list string)
| DirEntry (e : entry).

Definition readDirectory (fs : MiniFS) (path : Path)
    (options : option ReadOptions) : outcome (option dir_result) :=
  match readEntry fs path with
  | Throw e => Throw e
  | Return entry =>
      let returnEntry := returnEntry_of options in
      match entry with
      | Some (File _) =>
          if preferErrors fs then
            Throw (Error "MiniFS.readDirectory" IsAFile (path_to_string path))
          else Return None
      | Some (Directory n c d) =>
          if returnEntry then Return (Some (DirEntry (Directory n c d)))
          else Return (Some (DirNames (object_keys c)))
      | None =>
          if preferErrors fs then
            Throw (Error "MiniFS.readDirectory" DoesNotExist
                     (path_to_string path))
          else Return None
      end
  end.

(** What [readFile] returns when it does not return [null]. *)
Inductive file_result :=
| FileContent (v : C)
| FileEntry (e : entry).

Definition readFile (fs : MiniFS) (path : Path)
    (options : option ReadOptions) : outcome (option file_result) :=
  match readEntry fs path with
  | Throw e => Throw e
  | Return entry =>
      let returnEntry := returnEntry_of options in
      match entry with
      | Some (File f) =>
          match fcontent f with
          | None =>
              if preferErrors fs then
                Throw (Error "MiniFS.readFile" HasNoContent
                         (path_to_string path))
              else Return None
          | Some v =>
              if returnEntry then Return (Some (FileEntry (File f)))
              else Return (Some (FileContent v))
          end
      | None =>
          if preferErrors fs then
            Throw (Error "MiniFS.readFile" DoesNotExist (path_to_string path))
          else Return None
      | Some (Directory _ _ _) =>
          if preferErrors fs then
            Throw (Error "MiniFS.readFile" IsADirectory (path_to_string path))
          else Return None
      end
  end.
(** *** [_writeFile], [writeFile], [writeFileWithCallback] *)

(** The loop of [_writeFile].  The branch for an existing entry at the
    last segment sits inside the test for a missing one, as in the
    source, so its re-test [pathSegment in dir.content] is always
    false there. *)
Fixpoint writeFile_loop (pe recursive : bool) (callback : file -> file)
    (fullpath : PathSegments) (c : DirectoryContent) (path : PathSegments)
    : DirectoryContent * outcome bool :=
  match path with
  | [] => (c, Return true)
  | pathSegment :: rest =>
      let isLastSegment := match rest with [] => true | _ => false end in
      let step (c1 : DirectoryContent) (nextEntry : entry) :=
        match nextEntry with
        | File _ =>
            if pe then
              (c1, Throw (Error "MiniFS._writeFile" IsAFile pathSegment))
            else (c1, Return false)
        | Directory n c' d =>
            let (c'', r) :=
              writeFile_loop pe recursive callback fullpath c' rest in
            (set pathSegment (Directory n c'' d) c1, r)
        end in
      match lookup pathSegment c with
      | None =>
          if recursive then
            if isLastSegment then
              match lookup pathSegment c with
              | Some (File f) =>
                  (set pathSegment (File (callback f)) c, Return true)
              | Some (Directory _ _ _) =>
                  if pe then
                    (c, Throw (Error "MiniFS._writeFile" IsADirectory
                                 (String.concat "/" fullpath)))
                  else (c, Return false)
              | None =>
                  (set pathSegment (File (callback (new_File pathSegment))) c,
                   Return true)
              end
            else
              let nd := new_Directory pathSegment in
              step (set pathSegment nd c) nd
          else if pe then
            (c, Throw (Error "MiniFS._writeFile" DoesNotExist pathSegment))
          else (c, Return false)
      | Some nextEntry => step c nextEntry
      end
  end.

Definition _writeFile (fs : MiniFS) (path : PathSegments)
    (callback : file -> file) (recursive : bool) : MiniFS * outcome bool :=
  with_root fs (fun c =>
    writeFile_loop (preferErrors fs) recursive callback path c path).

(** [(file) => { file.content = content; }] *)
Definition set_content (content : option C) (f : file) : file :=
  {| fname := fname f; fcontent := content; fdata := fdata f |}.

Definition writeFile (fs : MiniFS) (path : Path) (content : option C)
    (options : option WriteOptions) : MiniFS * outcome bool :=
  _writeFile fs (pathAsSegments path) (set_content content)
    (recursive_of options).

Definition writeFileWithCallback (fs : MiniFS) (path : Path)
    (callback : file -> file) (options : option WriteOptions)
    : MiniFS * outcome bool :=
  _writeFile fs (pathAsSegments path) callback (recursive_of options).

(** The [writeFile] of [src/index.ts], which has no callback: a missing
    last segment gets [new File(pathSegment, content)].  Directories of
    that variant carry no name; they are built here with the empty
    one. *)
Fixpoint writeFile_index_loop (pe recursive : bool) (content : option C)
    (c : DirectoryContent) (path : PathSegments)
    : DirectoryContent * outcome bool :=
  match path with
  | [] => (c, Return true)
  | pathSegment :: rest =>
      let isLastSegment := match rest with [] => true | _ => false end in
      let step (c1 : DirectoryContent) (nextEntry : entry) :=
        match nextEntry with
        | File _ =>
            if pe then
              (c1, Throw (Error "MiniFS.writeFile" IsAFile pathSegment))
            else (c1, Return false)
        | Directory n c' d =>
            let (c'', r) := writeFile_index_loop pe recursive content c' rest in
            (set pathSegment (Directory n c'' d) c1, r)
        end in
      match lookup pathSegment c with
      | None =>
          if recursive then
            if isLastSegment then
              (set pathSegment (File (mkFile pathSegment content None)) c,
               Return true)
            else
              let nd := Directory "" [] None in
              step (set pathSegment nd c) nd
          else if pe then
            (c, Throw (Error "MiniFS.writeFile" DoesNotExist pathSegment))
          else (c, Return false)
      | Some nextEntry => step c nextEntry
      end
  end.

Definition writeFile_index (fs : MiniFS) (path : Path) (content : option C)
    (options : option WriteOptions) : MiniFS * outcome bool :=
  let segs := pathAsSegments path in
  with_root fs (fun c =>
    writeFile_index_loop (preferErrors fs) (recursive_of options) content c segs).

(** *** [remove] *)

Fixpoint remove_loop (pe : bool) (c : DirectoryContent) (path : PathSegments)
    : DirectoryContent * outcome bool :=
  match path with
  | [] => (c, Return true)
  | pathSegment :: rest =>
      match lookup pathSegment c with
      | None =>
          if pe then
            (c, Throw (Error "MiniFS.removeDirectory" DoesNotExist pathSegment))
          else (c, Return false)
      | Some (File _) =>
          if pe then
            (c, Throw (Error "MiniFS.removeDirectory" IsAFile pathSegment))
          else (c, Return false)
      | Some (Directory n c' d) =>
          match rest with
          | [] => (delete pathSegment c, Return true)
          | _ :: _ =>
              let (c'', r) := remove_loop pe c' rest in
              (set pathSegment (Directory n c'' d) c, r)
          end
      end
  end.

Definition remove (fs : MiniFS) (path : Path) : MiniFS * outcome bool :=
  let segs := pathAsSegments path in
  with_root fs (fun c => remove_loop (preferErrors fs) c segs).

(** *** [walk]: the pre-order enumeration, collected into a list *)

Fixpoint walk_entry (path : PathSegments) (e : entry)
    : list (PathSegments * entry) :=
  match e with
  | File _ => []
  | Directory _ c _ =>
      let fix blocks (c : list (string * entry))
          : list (string * list (PathSegments * entry)) :=
        match c with
        | [] => []
        | (name, child) :: rest =>
            (name, (path ++ [name], child) :: walk_entry (path ++ [name]) child)
              :: blocks rest
        end in
      concat (map snd (object_order (blocks c)))
  end.

Definition walk (fs : MiniFS) : list (PathSegments * entry) :=
  walk_entry [] (files fs).

(** *** The public interface as one step function *)

Inductive op :=
| OpCreateDirectory (path : Path) (options : option WriteOptions)
| OpReadDirectory (path : Path) (options : option ReadOptions)
| OpReadFile (path : Path) (options : option ReadOptions)
| OpWriteFile (path : Path) (content : option C)
    (options : option WriteOptions)
| OpWriteFileWithCallback (path : Path) (callback : file -> file)
    (options : option WriteOptions)
| OpRemove (path : Path)
| OpWalk.

Inductive op_result :=
| RBool (r : outcome bool)
| RDir (r : outcome (option dir_result))
| RFile (r : outcome (option file_result))
| RWalk (l : list (PathSegments * entry)).

Definition exec (fs : MiniFS) (o : op) : MiniFS * op_result :=
  match o with
  | OpCreateDirectory p opts =>
      let (fs', r) := createDirectory fs p opts in (fs', RBool r)
  | OpReadDirectory p opts => (fs, RDir (readDirectory fs p opts))
  | OpReadFile p opts => (fs, RFile (readFile fs p opts))
  | OpWriteFile p v opts =>
      let (fs', r) := writeFile fs p v opts in (fs', RBool r)
  | OpWriteFileWithCallback p cb opts =>
      let (fs', r) := writeFileWithCallback fs p cb opts in (fs', RBool r)
  | OpRemove p => let (fs', r) := remove fs p in (fs', RBool r)
  | OpWalk => (fs, RWalk (walk fs))
  end.

(** The stores seen along a sequence of calls, the first one included. *)
Fixpoint run (fs : MiniFS) (ops : list op) : list MiniFS :=
  match ops with
  | [] => [fs]
  | o :: rest => fs :: run (fst (exec fs o)) rest
  end.
End MiniFS.

(** ** Comparing results *)

Section Compare.
Context {C D : Type}.

(** An entry found again after a mutation: a [File] is the same file; a
    [Directory] keeps its name and data, its content may differ. *)
Definition kept (e e' : @entry C D) : Prop :=
  match e, e' with
  | File f, File f' => f = f'
  | Directory n _ d, Directory n' _ d' => n = n' /\ d = d'
  | _, _ => False
  end.

(** The results of one mutation in the two error modes: the same
    success, or [false] where prefer-errors mode throws. *)
Definition reports_alike (rs re : outcome bool) : Prop :=
  (rs = Return true /\ re = Return true) \/
  (rs = Return false /\ exists err, re = Throw err).

(** The results of one read in the two error modes: the same value, or
    [null] where prefer-errors mode throws. *)
Definition reads_alike {A : Type} (rs re : outcome (option A)) : Prop :=
  (exists x, rs = Return (Some x) /\ re = Return (Some x)) \/
  (rs = Return None /\ exists err, re = Throw err).
End Compare.


(** ** Erasing directory names

    The older variants of the class build directories as plain objects
    without a name.  [erase_names] maps a tree of this model to the tree
    such a variant holds: every directory gets the empty name. *)

Section Erase.
Context {C D : Type}.

Fixpoint erase_names (e : @entry C D) : @entry C D :=
  match e with
  | File f => File f
  | Directory _ c d =>
      Directory "" (map (fun kv => (fst kv, erase_names (snd kv))) c) d
  end.

Definition erase_content (c : list (string * @entry C D)) :=
  map (fun kv => (fst kv, erase_names (snd kv))) c.

Definition erase_fs (fs : @MiniFS C D) : @MiniFS C D :=
  mkMiniFS (erase_names (files fs)) (preferErrors fs).

(** The same result, with any error relabelled as thrown by [fn]. *)
Definition rename_error {A : Type} (fn : string) (r : outcome A) : outcome A :=
  match r with
  | Return a => Return a
  | Throw e => Throw (Error fn (err_kind e) (err_subject e))
  end.

(** No directory holds two entries under one name. *)
Fixpoint keys_unique (e : @entry C D) : Prop :=
  match e with
  | File _ => True
  | Directory _ c _ =>
      NoDup (map fst c) /\
      (fix all (c : list (string * entry)) : Prop :=
         match c with
         | [] => True
         | (_, e') :: rest => keys_unique e' /\ all rest
         end) c
  end.

Definition content_unique (c : list (string * @entry C D)) : Prop :=
  NoDup (map fst c) /\ Forall (fun kv => keys_unique (snd kv)) c.
End Erase.

Section EntryInd.
Context {C D : Type}.
Variable Pe : @entry C D -> Prop.
Hypothesis HFile : forall f, Pe (File f).
Hypothesis HDir : forall n c d,
  Forall (fun kv => Pe (snd kv)) c -> Pe (Directory n c d).

(** Induction on entries through the content of directories. *)
Fixpoint entry_deep_ind (e : @entry C D) : Pe e :=
  match e with
  | File f => HFile f
  | Directory n c d =>
      HDir n c d
        ((fix go (c : list (string * @entry C D))
            : Forall (fun kv => Pe (snd kv)) c :=
            match c with
            | [] => Forall_nil _
            | (k, e') :: rest => Forall_cons (k, e') (entry_deep_ind e') (go rest)
            end) c)
  end.
End EntryInd.

(** ** The oldest variant of the class

    In the last class of [src/unnamed/part_000] a [Directory] is a plain
    object and a [File] has a [name] and a [content].  Its [writeFile] is
    the loop of [writeFile_index] and its [remove] is [remove_loop]
    itself; its [readEntry] and [createDirectory] are embedded below. *)

Section OldMiniFS.
Context {C D : Type}.

(** [k in file] for a [File] object of the oldest variant: its own
    properties are [name] and [content] (the constructor assigns both). *)
Definition file_has_key (k : string) : bool :=
  String.eqb k "name" || String.eqb k "content".

Fixpoint old_readEntry_loop (pe : bool) (ent : @entry C D) (path : PathSegments)
    : outcome (option (@entry C D)) :=
  match path with
  | [] => Return (Some ent)
  | pathSegment :: rest =>
      match ent with
      | File _ =>
          if file_has_key pathSegment then
            if pe then Throw (Error "MiniFS.readEntry" IsAFile pathSegment)
            else Return None
          else Return None
      | Directory _ c _ =>
          match lookup pathSegment c with
          | None => Return None
          | Some nextEntry =>
              match rest, nextEntry with
              | _ :: _, File _ =>
                  if pe then Throw (Error "MiniFS.readEntry" IsAFile pathSegment)
                  else Return None
              | _, _ => old_readEntry_loop pe nextEntry rest
              end
          end
      end
  end.

Definition old_readEntry (fs : @MiniFS C D) (path : Path) :=
  old_readEntry_loop (preferErrors fs) (files fs) (pathAsSegments path).

Definition old_readDirectory (fs : @MiniFS C D) (path : Path)
    (options : option ReadOptions) : outcome (option (@dir_result C D)) :=
  match old_readEntry fs path with
  | Throw e => Throw e
  | Return entry =>
      let returnEntry := returnEntry_of options in
      match entry with
      | Some (File _) =>
          if preferErrors fs then
            Throw (Error "MiniFS.readDirectory" IsAFile (path_to_string path))
          else Return None
      | Some (Directory n c d) =>
          if returnEntry then Return (Some (DirEntry (Directory n c d)))
          else Return (Some (DirNames (object_keys c)))
      | None =>
          if preferErrors fs then
            Throw (Error "MiniFS.readDirectory" DoesNotExist (path_to_string path))
          else Return None
      end
  end.

Definition old_readFile (fs : @MiniFS C D) (path : Path)
    (options : option ReadOptions) : outcome (option (@file_result C D)) :=
  match old_readEntry fs path with
  | Throw e => Throw e
  | Return entry =>
      let returnEntry := returnEntry_of options in
      match entry with
      | Some (File f) =>
          match fcontent f with
          | None =>
              if preferErrors fs then
                Throw (Error "MiniFS.readFile" HasNoContent (path_to_string path))
              else Return None
          | Some v =>
              if returnEntry then Return (Some (FileEntry (File f)))
              else Return (Some (FileContent v))
          end
      | None =>
          if preferErrors fs then
            Throw (Error "MiniFS.readFile" DoesNotExist (path_to_string path))
          else Return None
      | Some (Directory _ _ _) =>
          if preferErrors fs then
            Throw (Error "MiniFS.readFile" IsADirectory (path_to_string path))
          else Return None
      end
  end.

Fixpoint old_createDirectory_loop (pe recursive : bool) (c : list (string * @entry C D))
    (path : PathSegments) : list (string * @entry C D) * outcome bool :=
  match path with
  | [] => (c, Return true)
  | pathSegment :: rest =>
      let step (c1 : list (string * @entry C D)) (nextEntry : @entry C D) :=
        match nextEntry with
        | File _ =>
            if pe then
              (c1, Throw (Error "MiniFS.createDirectory" IsAFile pathSegment))
            else (c1, Return false)
        | Directory n c' d =>
            let (c'', r) := old_createDirectory_loop pe recursive c' rest in
            (set pathSegment (Directory n c'' d) c1, r)
        end in
      match lookup pathSegment c with
      | None =>
          if recursive then
            let nd := Directory "" [] None in
            step (set pathSegment nd c) nd
          else if pe then
            (c, Throw (Error "MiniFS.createDirectory" DoesNotExist pathSegment))
          else (c, Return false)
      | Some nextEntry => step c nextEntry
      end
  end.

Definition old_createDirectory (fs : @MiniFS C D) (path : Path)
    (options : option WriteOptions) : @MiniFS C D * outcome bool :=
  with_root fs (fun c =>
    old_createDirectory_loop (preferErrors fs) (recursive_of options) c
      (pathAsSegments path)).

Definition erase_dir_result (r : @dir_result C D) : @dir_result C D :=
  match r with
  | DirNames l => DirNames l
  | DirEntry e => DirEntry (erase_names e)
  end.

Definition erase_file_result (r : @file_result C D) : @file_result C D :=
  match r with
  | FileContent v => FileContent v
  | FileEntry e => FileEntry (erase_names e)
  end.

(** Two read results that agree once the first is mapped by [g], when
    neither throws; or that both throw. *)
Definition agrees_modulo_errors {A B : Type} (g : A -> B) (rn : outcome A)
    (ro : outcome B) : Prop :=
  match rn, ro with
  | Return a, Return b => b = g a
  | Throw _, Throw _ => True
  | _, _ => False
  end.
End OldMiniFS.

(** ** Map lemmas *)

Section MapFacts.
Context {A : Type}.

Lemma lookup_set_eq (k : string) (v : A) (m : list (string * A)) :
  lookup k (set k v m) = Some v.
Proof.
  induction m as [|[k' v'] m IH]; simpl.
  - now rewrite String.eqb_refl.
  - destruct (String.eqb k k') eqn:E; simpl; rewrite ?E; auto.
Qed.

Lemma set_lookup_same (k : string) (v : A) (m : list (string * A)) :
  lookup k m = Some v -> set k v m = m.
Proof.
  induction m as [|[k' v'] m IH]; simpl; [discriminate|].
  destruct (String.eqb k k') eqn:E.
  - intros H; injection H as ->. apply String.eqb_eq in E; now subst.
  - intros H; now rewrite IH.
Qed.
End MapFacts.

(** ** Path splitting *)

Fixpoint contains_slash (s : string) : bool :=
  match s with
  | EmptyString => false
  | String ch rest => Ascii.eqb ch "/" || contains_slash rest
  end.

Lemma append_empty_r (s : string) : (s ++ "")%string = s.
Proof. induction s as [|ch s IH]; simpl; [reflexivity|now rewrite IH]. Qed.

Lemma concat_cons (sep x : string) (l : list string) :
  String.concat sep (x :: l) =
  (x ++ match l with [] => "" | _ :: _ => sep ++ String.concat sep l end)%string.
Proof.
  destruct l; simpl; [now rewrite append_empty_r | reflexivity].
Qed.

Lemma split_slash_not_nil (s : string) : split_slash s <> [].
Proof.
  destruct s as [|ch rest]; simpl; [discriminate|].
  destruct (Ascii.eqb ch "/"); [discriminate|].
  destruct (split_slash rest); discriminate.
Qed.

Lemma split_slash_concat (s : string) :
  String.concat "/" (split_slash s) = s.
Proof.
  induction s as [|ch rest IH]; [reflexivity|].
  simpl split_slash.
  destruct (Ascii.eqb ch "/") eqn:E.
  - apply Ascii.eqb_eq in E; subst ch.
    rewrite concat_cons.
    destruct (split_slash rest) eqn:Hs; [now destruct (split_slash_not_nil rest)|].
    now rewrite IH.
  - destruct (split_slash rest) as [|hd tl] eqn:Hs;
      [now destruct (split_slash_not_nil rest)|].
    rewrite concat_cons in IH |- *. now rewrite <- IH.
Qed.

Lemma split_slash_segments (s : string) :
  Forall (fun seg => contains_slash seg = false) (split_slash s).
Proof.
  induction s as [|ch rest IH]; simpl; [now constructor|].
  destruct (Ascii.eqb ch "/") eqn:E; [now constructor|].
  destruct (split_slash rest) as [|hd tl]; inversion IH; subst.
  - constructor; [simpl; now rewrite E|constructor].
  - constructor; [simpl; now rewrite E|assumption].
Qed.

Lemma split_slash_app (x s : string) :
  contains_slash x = false ->
  split_slash (x ++ s)%string =
  match split_slash s with
  | [] => [x]
  | hd :: tl => (x ++ hd)%string :: tl
  end.
Proof.
  induction x as [|ch x IH]; simpl; intros Hx.
  - destruct (split_slash s) eqn:Hs; [now destruct (split_slash_not_nil s)|].
    reflexivity.
  - apply orb_false_iff in Hx as [Hch Hx].
    rewrite Hch, (IH Hx).
    destruct (split_slash s); reflexivity.
Qed.

Lemma split_slash_slash (r : string) :
  split_slash (String "/" r) = "" :: split_slash r.
Proof. reflexivity. Qed.

Lemma split_slash_of_concat (l : list string) :
  l <> [] -> Forall (fun seg => contains_slash seg = false) l ->
  split_slash (String.concat "/" l) = l.
Proof.
  induction l as [|x l IH]; intros Hne Hall; [contradiction|].
  inversion Hall as [|? ? Hx Hl]; subst.
  rewrite concat_cons.
  destruct l as [|y l].
  - rewrite (split_slash_app x "" Hx). simpl.
    now rewrite append_empty_r.
  - rewrite (split_slash_app x _ Hx).
    change ("/" ++ ?r)%string with (String "/" r).
    rewrite split_slash_slash, IH by (discriminate || assumption).
    now rewrite append_empty_r.
Qed.

(** ** Walker lemmas *)

Section Walker.
Context {C D : Type}.
Lemma readEntry_loop_file_not_dir (pe : bool) fp (f : @file C D)
    (P : PathSegments) n c d :
  readEntry_loop pe fp (File f) P <> Return (Some (Directory n c d)).
Proof. destruct P, pe; simpl; discriminate. Qed.

Lemma readEntry_root_directory (root : @entry C D) (P : PathSegments) n c d :
  readEntry (mkMiniFS root false) (PSegs P) = Return (Some (Directory n c d)) ->
  exists n0 c0 d0, root = Directory n0 c0 d0 /\
    readEntry_loop false P (Directory n0 c0 d0) P
    = Return (Some (Directory n c d)).
Proof.
  unfold readEntry; simpl. destruct root as [f|n0 c0 d0]; intros H.
  - now destruct (readEntry_loop_file_not_dir false P f P n c d).
  - eauto.
Qed.

(** [_writeFile] on a path whose last segment already exists. *)
Lemma writeFile_loop_existing (pe r : bool) (cb : @file C D -> @file C D)
    full fp (P : PathSegments) n0 c0 d0 n c d k (e : @entry C D) :
  readEntry_loop false fp (Directory n0 c0 d0) P
    = Return (Some (Directory n c d)) ->
  lookup k c = Some e ->
  writeFile_loop pe r cb full c0 (P ++ [k]) =
  (c0, match e with
       | File _ =>
           if pe then Throw (Error "MiniFS._writeFile" IsAFile k)
           else Return false
       | Directory _ _ _ => Return true
       end).
Proof.
  revert n0 c0 d0.
  induction P as [|seg P IH]; intros n0 c0 d0 Hr Hk.
  - simpl in Hr. injection Hr as -> -> ->. simpl. rewrite Hk.
    destruct e as [f|n' c' d']; [now destruct pe|].
    simpl. now rewrite set_lookup_same.
  - simpl in Hr. destruct (lookup seg c0) as [e0|] eqn:Hl; [|discriminate].
    simpl. rewrite Hl.
    destruct e0 as [f0|n1 c1 d1].
    + now destruct (readEntry_loop_file_not_dir false fp f0 P n c d).
    + rewrite (IH n1 c1 d1 Hr Hk). now rewrite set_lookup_same.
Qed.

(** [remove] on a path whose last segment names a [File]. *)
Lemma remove_loop_file (pe : bool) fp (P : PathSegments) n0 c0 d0 n c d k
    (f : @file C D) :
  readEntry_loop false fp (Directory n0 c0 d0) P
    = Return (Some (Directory n c d)) ->
  lookup k c = Some (File f) ->
  remove_loop pe c0 (P ++ [k]) =
  (c0, if pe then Throw (Error "MiniFS.removeDirectory" IsAFile k)
       else Return false).
Proof.
  revert n0 c0 d0.
  induction P as [|seg P IH]; intros n0 c0 d0 Hr Hk.
  - simpl in Hr. injection Hr as -> -> ->. simpl. rewrite Hk.
    now destruct pe.
  - simpl in Hr. destruct (lookup seg c0) as [e0|] eqn:Hl; [|discriminate].
    destruct e0 as [f0|n1 c1 d1].
    + now destruct (readEntry_loop_file_not_dir false fp f0 P n c d).
    + simpl. rewrite Hl.
      destruct (P ++ [k]) as [|s rest] eqn:Hpk; [now destruct P|].
      rewrite (IH n1 c1 d1 Hr Hk). now rewrite set_lookup_same.
Qed.

(** [remove] on a path whose last segment names a [Directory]. *)
Lemma remove_loop_directory (pe pe' : bool) fp (P : PathSegments)
    n0 (c0 : list (string * @entry C D)) d0 n c d k n' c' d' :
  readEntry_loop false fp (Directory n0 c0 d0) P
    = Return (Some (Directory n c d)) ->
  lookup k c = Some (Directory n' c' d') ->
  exists c0', remove_loop pe c0 (P ++ [k]) = (c0', Return true) /\
    readEntry_loop pe' fp (Directory n0 c0' d0) P
    = Return (Some (Directory n (delete k c) d)).
Proof.
  revert n0 c0 d0.
  induction P as [|seg P IH]; intros n0 c0 d0 Hr Hk.
  - simpl in Hr. injection Hr as -> -> ->. simpl. rewrite Hk. eauto.
  - simpl in Hr. destruct (lookup seg c0) as [e0|] eqn:Hl; [|discriminate].
    destruct e0 as [f0|n1 c1 d1].
    + now destruct (readEntry_loop_file_not_dir false fp f0 P n c d).
    + destruct (IH n1 c1 d1 Hr Hk) as [c1' [Hrm Hrd]].
      exists (set seg (Directory n1 c1' d1) c0). split.
      * simpl. rewrite Hl.
        destruct (P ++ [k]) as [|s rest] eqn:Hpk; [now destruct P|].
        now rewrite Hrm.
      * simpl. now rewrite lookup_set_eq.
Qed.
Lemma readEntry_loop_cons_dir (pe : bool) fp seg rest n c d :
  readEntry_loop pe fp (@Directory C D n c d) (seg :: rest) =
  match lookup seg c with
  | None =>
      if pe then
        Throw (Error "MiniFS.readEntry" IntermediateDoesNotExist seg)
      else Return None
  | Some e => readEntry_loop pe fp e rest
  end.
Proof. reflexivity. Qed.

(** [_writeFile] on a path that names no entry yet: when it succeeds,
    the path then names the [File] the callback produced from
    [new File(lastSegment)]. *)
Lemma writeFile_loop_new (pe pe' r : bool) (cb : @file C D -> @file C D)
    full fp fp' (segs : PathSegments) n0
    (c0 c0' : list (string * @entry C D)) d0 :
  segs <> [] ->
  readEntry_loop false fp (Directory n0 c0 d0) segs = Return None ->
  writeFile_loop pe r cb full c0 segs = (c0', Return true) ->
  readEntry_loop pe' fp' (Directory n0 c0' d0) segs
    = Return (Some (File (cb (new_File (last segs ""))))).
Proof.
  revert n0 c0 d0 c0'.
  induction segs as [|seg rest IH]; intros n0 c0 d0 c0' Hne Hr Hw;
    [contradiction|].
  rewrite readEntry_loop_cons_dir in Hr.
  cbn -[new_Directory set] in Hw.
  destruct (lookup seg c0) as [e0|] eqn:Hl.
  - destruct e0 as [f0|n1 c1 d1]; [destruct pe; inversion Hw|].
    destruct rest as [|s rest']; [discriminate|].
    destruct (writeFile_loop pe r cb full c1 (s :: rest')) as [c1' r1] eqn:E.
    injection Hw as <- ->.
    rewrite readEntry_loop_cons_dir, lookup_set_eq.
    exact (IH n1 c1 d1 c1' ltac:(discriminate) Hr E).
  - destruct r; [|destruct pe; inversion Hw].
    destruct rest as [|s rest'].
    + injection Hw as <-.
      rewrite readEntry_loop_cons_dir, lookup_set_eq. reflexivity.
    + unfold new_Directory in Hw.
      destruct (writeFile_loop pe true cb full [] (s :: rest'))
        as [c1' r1] eqn:E.
      injection Hw as <- ->.
      rewrite readEntry_loop_cons_dir, lookup_set_eq.
      exact (IH seg [] None c1' ltac:(discriminate) eq_refl E).
Qed.

(** [_writeFile] and the [writeFile] of [src/index.ts] on a path that
    names an existing [Directory]: every segment is walked into and the
    loop ends with [return true]. *)
Lemma writeFile_loop_at_directory (pe r : bool) (cb : @file C D -> @file C D)
    full fp (P : PathSegments) n0 c0 d0 n c d :
  readEntry_loop false fp (Directory n0 c0 d0) P
    = Return (Some (Directory n c d)) ->
  writeFile_loop pe r cb full c0 P = (c0, Return true).
Proof.
  revert n0 c0 d0.
  induction P as [|seg P IH]; intros n0 c0 d0 Hr; [reflexivity|].
  simpl in Hr. destruct (lookup seg c0) as [e0|] eqn:Hl; [|discriminate].
  simpl. rewrite Hl.
  destruct e0 as [f0|n1 c1 d1].
  - now destruct (readEntry_loop_file_not_dir false fp f0 P n c d).
  - rewrite (IH n1 c1 d1 Hr). now rewrite set_lookup_same.
Qed.

Lemma writeFile_index_loop_at_directory (pe r : bool) (v : option C)
    fp (P : PathSegments) n0 c0 d0 n (c : list (string * @entry C D)) d :
  readEntry_loop false fp (Directory n0 c0 d0) P
    = Return (Some (Directory n c d)) ->
  writeFile_index_loop pe r v c0 P = (c0, Return true).
Proof.
  revert n0 c0 d0.
  induction P as [|seg P IH]; intros n0 c0 d0 Hr; [reflexivity|].
  simpl in Hr. destruct (lookup seg c0) as [e0|] eqn:Hl; [|discriminate].
  simpl. rewrite Hl.
  destruct e0 as [f0|n1 c1 d1].
  - now destruct (readEntry_loop_file_not_dir false fp f0 P n c d).
  - rewrite (IH n1 c1 d1 Hr). now rewrite set_lookup_same.
Qed.

(** An entry found in the sentinel mode is found in both modes. *)
Lemma readEntry_loop_found_any_mode (pe : bool) fp (e : @entry C D)
    (P : PathSegments) (x : @entry C D) :
  readEntry_loop false fp e P = Return (Some x) ->
  readEntry_loop pe fp e P = Return (Some x).
Proof.
  revert e. induction P as [|seg P IH]; intros e H; [exact H|].
  destruct e as [f|n c d]; [discriminate|].
  simpl in H |- *. destruct (lookup seg c); [exact (IH _ H)|discriminate].
Qed.
End Walker.

(** ** The root is never replaced *)

Section RootFacts.
Context {C D : Type}.

Lemma with_root_directory {A : Type} n (c : list (string * @entry C D)) d pe
    (body : list (string * @entry C D) -> list (string * @entry C D) * outcome A) :
  isDirectory (files (fst (with_root (mkMiniFS (Directory n c d) pe) body)))
  = true.
Proof. unfold with_root; simpl. now destruct (body c). Qed.

Lemma exec_root_directory (fs : @MiniFS C D) (o : @op C D) :
  isDirectory (files fs) = true ->
  isDirectory (files (fst (exec fs o))) = true.
Proof.
  destruct fs as [[f|n c d] pe]; [discriminate|]. intros _.
  destruct o as [p opts|p opts|p opts|p v opts|p cb opts|p|];
    cbn [exec]; try reflexivity;
    lazymatch goal with
    | |- context [let (_, _) := ?call in _] =>
        let E := fresh "E" in
        destruct call as [fs' r] eqn:E;
        change fs' with (fst (fs', r)); rewrite <- E;
        apply with_root_directory
    end.
Qed.
End RootFacts.

(** ** The claims *)

Section Claims.
Context {C D : Type}.

(** C1 (amended): on a path whose non-final segments resolve through
    directories to a parent with content [c], [remove] detaches a
    [Directory] named by the last segment [k] (the parent's content
    becomes [delete k c]) and returns true; a [File] named by [k] is
    rejected like an intermediate file ("is a file"): [remove] returns
    false, or throws in prefer-errors mode, and the store is unchanged. *)
Theorem remove_detaches_directory_rejects_file (root : @entry C D)
    (pe : bool) (p : Path) (P : PathSegments) (k : string) n c d
    (e : @entry C D) :
  pathAsSegments p = P ++ [k] ->
  readEntry (mkMiniFS root false) (PSegs P) = Return (Some (Directory n c d)) ->
  lookup k c = Some e ->
  match e with
  | Directory _ _ _ =>
      exists fs', remove (mkMiniFS root pe) p = (fs', Return true) /\
        readEntry fs' (PSegs P) = Return (Some (Directory n (delete k c) d))
  | File _ =>
      remove (mkMiniFS root pe) p =
      (mkMiniFS root pe,
       if pe then Throw (Error "MiniFS.removeDirectory" IsAFile k)
       else Return false)
  end.
Proof.
  intros Hp Hr Hk.
  destruct (readEntry_root_directory root P n c d Hr)
    as (n0 & c0 & d0 & -> & Hr').
  unfold remove, with_root; simpl; rewrite Hp.
  destruct e as [f|n' c' d'].
  - now rewrite (remove_loop_file pe P P n0 c0 d0 n c d k f Hr' Hk).
  - destruct (remove_loop_directory pe pe P P n0 c0 d0 n c d k n' c' d' Hr' Hk)
      as [c0' [Hrm Hrd]].
    rewrite Hrm. eexists; split; [reflexivity|].
    exact Hrd.
Qed.

(** C2 (code defect): when the last segment [k] of the path names an
    existing [File], [writeFile] and [writeFileWithCallback] do not
    overwrite it: both return false (throw "is a file" in prefer-errors
    mode) and leave the store unchanged. *)
Theorem writeFile_existing_file_not_overwritten (root : @entry C D)
    (pe : bool) (p : Path) (P : PathSegments) (k : string) n c d
    (f : @file C D) (v : option C) (cb : @file C D -> @file C D)
    (o : option WriteOptions) :
  pathAsSegments p = P ++ [k] ->
  readEntry (mkMiniFS root false) (PSegs P) = Return (Some (Directory n c d)) ->
  lookup k c = Some (File f) ->
  writeFile (mkMiniFS root pe) p v o =
    (mkMiniFS root pe,
     if pe then Throw (Error "MiniFS._writeFile" IsAFile k) else Return false) /\
  writeFileWithCallback (mkMiniFS root pe) p cb o =
    (mkMiniFS root pe,
     if pe then Throw (Error "MiniFS._writeFile" IsAFile k) else Return false).
Proof.
  intros Hp Hr Hk.
  destruct (readEntry_root_directory root P n c d Hr)
    as (n0 & c0 & d0 & -> & Hr').
  unfold writeFile, writeFileWithCallback, _writeFile, with_root; simpl.
  rewrite Hp, !(writeFile_loop_existing pe _ _ _ P P n0 c0 d0 n c d k _ Hr' Hk).
  split; reflexivity.
Qed.

(** C3 (code defect): when the last segment [k] of the path names an
    existing [Directory], [writeFile] and [writeFileWithCallback]
    return true (in either error mode) and leave the store unchanged. *)
Theorem writeFile_existing_directory_reports_success (root : @entry C D)
    (pe : bool) (p : Path) (P : PathSegments) (k : string) n c d
    n' (c' : list (string * @entry C D)) d' (v : option C)
    (cb : @file C D -> @file C D) (o : option WriteOptions) :
  pathAsSegments p = P ++ [k] ->
  readEntry (mkMiniFS root false) (PSegs P) = Return (Some (Directory n c d)) ->
  lookup k c = Some (Directory n' c' d') ->
  writeFile (mkMiniFS root pe) p v o = (mkMiniFS root pe, Return true) /\
  writeFileWithCallback (mkMiniFS root pe) p cb o
    = (mkMiniFS root pe, Return true).
Proof.
  intros Hp Hr Hk.
  destruct (readEntry_root_directory root P n c d Hr)
    as (n0 & c0 & d0 & -> & Hr').
  unfold writeFile, writeFileWithCallback, _writeFile, with_root; simpl.
  rewrite Hp, !(writeFile_loop_existing pe _ _ _ P P n0 c0 d0 n c d k _ Hr' Hk).
  split; reflexivity.
Qed.
(** C4 (amended): on a fresh store, after [writeFile("a/b.txt", c)]
    succeeds, [readDirectory(rootPath)] (the empty segment list) lists
    ["a"] and [readDirectory("a")] lists ["b.txt"]; the string [""]
    splits to the one segment [""], which names nothing, so
    [readDirectory("")] returns null (throws in prefer-errors mode). *)
Theorem fresh_write_then_list_directories (o : option MiniFSOptions)
    (v : option C) :
  let fs0 := @new_MiniFS C D o in
  let (fs1, r) := writeFile fs0 (PStr "a/b.txt") v None in
  r = Return true /\
  readDirectory fs1 rootPath None = Return (Some (DirNames ["a"])) /\
  readDirectory fs1 (PStr "a") None = Return (Some (DirNames ["b.txt"])) /\
  readDirectory fs1 (PStr "") None =
    (if preferErrors fs0
     then Throw (Error "MiniFS.readEntry" IntermediateDoesNotExist "")
     else Return None).
Proof.
  destruct o as [[[| |[|]]]|]; vm_compute; repeat split.
Qed.

(** C5 (code defect): the round trip fails on every path that names an
    existing [Directory], the root path [[]] included: [writeFile] (of
    both variants) returns true and leaves the store unchanged, and
    [readFile] of that path then returns null (throws "is a directory"
    in prefer-errors mode) instead of the content written. *)
Theorem writeFile_directory_path_not_readable (root : @entry C D) (pe : bool)
    (p : Path) n (c : list (string * @entry C D)) d (v : option C)
    (o : option WriteOptions) (ro : option ReadOptions) :
  readEntry (mkMiniFS root false) p = Return (Some (Directory n c d)) ->
  writeFile (mkMiniFS root pe) p v o = (mkMiniFS root pe, Return true) /\
  writeFile_index (mkMiniFS root pe) p v o = (mkMiniFS root pe, Return true) /\
  readFile (mkMiniFS root pe) p ro =
    (if pe then Throw (Error "MiniFS.readFile" IsADirectory (path_to_string p))
     else Return None).
Proof.
  intros Hr. unfold readEntry in Hr; simpl in Hr.
  destruct root as [f|n0 c0 d0].
  { now destruct (readEntry_loop_file_not_dir false _ f _ n c d Hr). }
  unfold writeFile, writeFile_index, _writeFile, with_root, readFile, readEntry;
    simpl.
  rewrite (writeFile_loop_at_directory pe (recursive_of o) (set_content v)
             _ _ _ n0 c0 d0 n c d Hr),
    (writeFile_index_loop_at_directory pe (recursive_of o) v
             _ _ n0 c0 d0 n c d Hr),
    (readEntry_loop_found_any_mode pe _ _ _ _ Hr).
  split; [reflexivity|split; reflexivity].
Qed.

(** C6: a string path is split literally on "/": joining the segments
    with "/" gives the string back, no segment contains "/", and this
    is the only such non-empty list, so empty segments are kept
    ("a//b" gives ["a"; ""; "b"], "/a" gives [""; "a"]); a segment
    array is returned unchanged. *)
Theorem pathAsSegments_literal_split :
  (forall s : string,
      String.concat "/" (pathAsSegments (PStr s)) = s /\
      Forall (fun seg => contains_slash seg = false) (pathAsSegments (PStr s))) /\
  (forall (s : string) (l : list string),
      l <> [] -> Forall (fun seg => contains_slash seg = false) l ->
      String.concat "/" l = s -> pathAsSegments (PStr s) = l) /\
  pathAsSegments (PStr "a//b") = ["a"; ""; "b"] /\
  pathAsSegments (PStr "/a") = [""; "a"] /\
  (forall segs : PathSegments, pathAsSegments (PSegs segs) = segs).
Proof.
  split; [|split; [|split; [|split]]].
  - intros s. exact (conj (split_slash_concat s) (split_slash_segments s)).
  - intros s l Hne Hall <-. exact (split_slash_of_concat l Hne Hall).
  - reflexivity.
  - reflexivity.
  - reflexivity.
Qed.

(** C7: on a store whose root has no entry "x",
    [createDirectory("x/y", {recursive: false})] returns false (throws
    "does not exist" in prefer-errors mode) and the store is
    unchanged. *)
Theorem createDirectory_nonrecursive_missing_parent n
    (c : list (string * @entry C D)) d (pe : bool) :
  lookup "x" c = None ->
  createDirectory (mkMiniFS (Directory n c d) pe) (PStr "x/y")
    (Some {| recursive_opt := Defined false |}) =
  (mkMiniFS (Directory n c d) pe,
   if pe then Throw (Error "MiniFS.createDirectory" DoesNotExist "x")
   else Return false).
Proof.
  intros Hx. unfold createDirectory, with_root; simpl.
  rewrite Hx. now destruct pe.
Qed.

(** C8: [readDirectory] and [readFile] leave the store as it was, for
    every store, path and options, whatever they return or throw. *)
Theorem reads_leave_store_unchanged (fs : @MiniFS C D) (p : Path)
    (o : option ReadOptions) :
  exec fs (OpReadDirectory p o) = (fs, RDir (readDirectory fs p o)) /\
  exec fs (OpReadFile p o) = (fs, RFile (readFile fs p o)).
Proof. split; reflexivity. Qed.

(** C9: starting from a store whose root is a [Directory], every store
    reached by any sequence of public operations still has a
    [Directory] root. *)
Theorem root_stays_directory (fs : @MiniFS C D) (ops : list (@op C D)) :
  isDirectory (files fs) = true ->
  Forall (fun s => isDirectory (files s) = true) (run fs ops).
Proof.
  revert fs. induction ops as [|o ops IH]; intros fs Hfs; simpl.
  - now constructor.
  - constructor; [exact Hfs|].
    apply IH, exec_root_directory, Hfs.
Qed.

(** C10: on the empty segment list (the root path), [writeFile],
    [writeFileWithCallback], the [writeFile] of [src/index.ts],
    [createDirectory] and [remove] all return true and leave the store
    unchanged; no file is created. *)
Theorem root_path_mutations_are_noops n (c : list (string * @entry C D)) d
    (pe : bool) (v : option C) (cb : @file C D -> @file C D)
    (o : option WriteOptions) :
  let fs := mkMiniFS (Directory n c d) pe in
  writeFile fs rootPath v o = (fs, Return true) /\
  writeFileWithCallback fs rootPath cb o = (fs, Return true) /\
  writeFile_index fs rootPath v o = (fs, Return true) /\
  createDirectory fs rootPath o = (fs, Return true) /\
  remove fs rootPath = (fs, Return true).
Proof. repeat split. Qed.
End Claims.

(** ** Concrete runs: witnesses and counterexamples *)

Definition root_with_dir : @entry nat unit :=
  Directory "" [("a", Directory "a" [] None)] None.

Definition root_with_file : @entry nat unit :=
  Directory "" [("a.txt", File (mkFile "a.txt" (Some 1) None))] None.

(** Removing the directory "a" from the root. *)
Lemma remove_detaches_directory_rejects_file_witness :
  pathAsSegments (PStr "a") = [] ++ ["a"] /\
  readEntry (mkMiniFS root_with_dir false) (PSegs [])
    = Return (Some (Directory "" [("a", Directory "a" [] None)] None)) /\
  lookup "a" [("a", @Directory nat unit "a" [] None)]
    = Some (Directory "a" [] None) /\
  exists fs', remove (mkMiniFS root_with_dir false) (PStr "a")
                = (fs', Return true) /\
              readEntry fs' (PSegs []) = Return (Some (Directory "" [] None)).
Proof.
  split; [reflexivity|split; [reflexivity|split; [reflexivity|]]].
  exact (remove_detaches_directory_rejects_file root_with_dir false (PStr "a")
           [] "a" "" _ None (Directory "a" [] None) eq_refl eq_refl eq_refl).
Defined.

(** C1 fails: after [writeFile("f.txt", 1)], [remove("f.txt")] returns
    false and the file stays. *)
Lemma remove_existing_file_returns_false :
  let fs1 := fst (writeFile (@new_MiniFS nat unit None) (PStr "f.txt")
                    (Some 1) None) in
  remove fs1 (PStr "f.txt") = (fs1, Return false) /\
  readFile fs1 (PStr "f.txt") None = Return (Some (FileContent 1)).
Proof. split; reflexivity. Qed.

(** The failing input of C2: [writeFile("a.txt", 2)] after
    [writeFile("a.txt", 1)]. *)
Lemma writeFile_existing_file_not_overwritten_witness :
  pathAsSegments (PStr "a.txt") = [] ++ ["a.txt"] /\
  readEntry (mkMiniFS root_with_file false) (PSegs []) = Return (Some root_with_file) /\
  lookup "a.txt" [("a.txt", @File nat unit (mkFile "a.txt" (Some 1) None))]
    = Some (File (mkFile "a.txt" (Some 1) None)) /\
  writeFile (mkMiniFS root_with_file false) (PStr "a.txt") (Some 2) None
    = (mkMiniFS root_with_file false, Return false) /\
  writeFileWithCallback (mkMiniFS root_with_file false) (PStr "a.txt")
    (set_content (Some 2)) None
    = (mkMiniFS root_with_file false, Return false).
Proof.
  split; [reflexivity|split; [reflexivity|split; [reflexivity|]]].
  exact (writeFile_existing_file_not_overwritten root_with_file false
           (PStr "a.txt") [] "a.txt" "" _ None (mkFile "a.txt" (Some 1) None)
           (Some 2) (set_content (Some 2)) None eq_refl eq_refl eq_refl).
Defined.

(** The failing input of C3: [writeFile("a", 2)] after
    [createDirectory("a")]. *)
Lemma writeFile_existing_directory_reports_success_witness :
  pathAsSegments (PStr "a") = [] ++ ["a"] /\
  readEntry (mkMiniFS root_with_dir false) (PSegs []) = Return (Some root_with_dir) /\
  lookup "a" [("a", @Directory nat unit "a" [] None)]
    = Some (Directory "a" [] None) /\
  writeFile (mkMiniFS root_with_dir false) (PStr "a") (Some 2) None
    = (mkMiniFS root_with_dir false, Return true) /\
  writeFileWithCallback (mkMiniFS root_with_dir false) (PStr "a")
    (set_content (Some 2)) None
    = (mkMiniFS root_with_dir false, Return true).
Proof.
  split; [reflexivity|split; [reflexivity|split; [reflexivity|]]].
  exact (writeFile_existing_directory_reports_success root_with_dir false
           (PStr "a") [] "a" "" _ None "a" [] None (Some 2)
           (set_content (Some 2)) None eq_refl eq_refl eq_refl).
Defined.

(** The [writeFile] of [src/index.ts] behaves the same on both inputs. *)
Example writeFile_index_existing_file :
  let fs1 := fst (writeFile_index (@new_MiniFS nat unit None) (PStr "a.txt")
                    (Some 1) None) in
  writeFile_index fs1 (PStr "a.txt") (Some 2) None = (fs1, Return false) /\
  readFile fs1 (PStr "a.txt") None = Return (Some (FileContent 1)).
Proof. split; reflexivity. Qed.

Example writeFile_index_existing_directory :
  let fs1 := fst (createDirectory (@new_MiniFS nat unit None) (PStr "a") None) in
  writeFile_index fs1 (PStr "a") (Some 2) None = (fs1, Return true).
Proof. reflexivity. Qed.

(** C4 fails: after [writeFile("a/b.txt", 0)] on a fresh store,
    [readDirectory("")] returns null, not ["a"]. *)
Lemma readDirectory_empty_string_is_not_root :
  let fs1 := fst (writeFile (@new_MiniFS nat unit None) (PStr "a/b.txt")
                    (Some 0) None) in
  readDirectory fs1 (PStr "") None = Return None /\
  readDirectory fs1 (PStr "") None <> Return (Some (DirNames ["a"])).
Proof. vm_compute. split; [reflexivity|discriminate]. Qed.

(** Writing to the existing directory "a": true, nothing stored, and
    [readFile("a")] returns null. *)
Lemma writeFile_directory_path_not_readable_witness :
  readEntry (mkMiniFS root_with_dir false) (PStr "a")
    = Return (Some (Directory "a" [] None)) /\
  writeFile (mkMiniFS root_with_dir false) (PStr "a") (Some 5) None
    = (mkMiniFS root_with_dir false, Return true) /\
  writeFile_index (mkMiniFS root_with_dir false) (PStr "a") (Some 5) None
    = (mkMiniFS root_with_dir false, Return true) /\
  readFile (mkMiniFS root_with_dir false) (PStr "a") None = Return None.
Proof.
  split; [reflexivity|].
  exact (writeFile_directory_path_not_readable root_with_dir false (PStr "a")
           "a" [] None (Some 5) None None eq_refl).
Defined.

Lemma createDirectory_nonrecursive_missing_parent_witness :
  lookup "x" (@nil (string * @entry nat unit)) = None /\
  createDirectory (mkMiniFS (@Directory nat unit "" [] None) false) (PStr "x/y")
    (Some {| recursive_opt := Defined false |})
  = (mkMiniFS (Directory "" [] None) false, Return false).
Proof.
  split; [reflexivity|].
  exact (createDirectory_nonrecursive_missing_parent "" [] None false eq_refl).
Defined.

Lemma root_stays_directory_witness :
  let ops := [OpWriteFile (PStr "a/b.txt") (Some 1) None;
              OpRemove (PStr "a");
              OpCreateDirectory rootPath None;
              OpWriteFile rootPath (Some 2) None;
              OpRemove rootPath] in
  isDirectory (files (@new_MiniFS nat unit None)) = true /\
  Forall (fun s => isDirectory (files s) = true)
    (run (@new_MiniFS nat unit None) ops).
Proof.
  cbv zeta. split; [reflexivity|].
  apply root_stays_directory. reflexivity.
Defined.

(** ** Further properties of the operations *)

Ltac alike :=
  first [ left; split; reflexivity
        | left; eexists; split; reflexivity
        | right; split; [reflexivity|eexists; reflexivity] ].

Section MoreMapFacts.
Context {A : Type}.

Lemma lookup_set_ne (k k' : string) (v : A) (m : list (string * A)) :
  k <> k' -> lookup k (set k' v m) = lookup k m.
Proof.
  intros Hne. apply String.eqb_neq in Hne.
  induction m as [|[k'' v''] m IH]; simpl; [now rewrite Hne|].
  destruct (String.eqb k' k'') eqn:E; simpl.
  - apply String.eqb_eq in E; subst k''. now rewrite Hne.
  - now rewrite IH.
Qed.

Lemma lookup_delete_ne (k k' : string) (m : list (string * A)) :
  k <> k' -> lookup k (delete k' m) = lookup k m.
Proof.
  intros Hne. apply String.eqb_neq in Hne.
  induction m as [|[k'' v''] m IH]; simpl; [reflexivity|].
  destruct (String.eqb k' k'') eqn:E; simpl.
  - apply String.eqb_eq in E; subst k''. now rewrite Hne.
  - now rewrite IH.
Qed.

Lemma lookup_not_in (k : string) (m : list (string * A)) :
  ~ In k (map fst m) -> lookup k m = None.
Proof.
  induction m as [|[k' v'] m IH]; simpl; intros Hn; [reflexivity|].
  destruct (String.eqb k k') eqn:E.
  - apply String.eqb_eq in E; subst k'. now destruct Hn; left.
  - apply IH. intros Hin; apply Hn; now right.
Qed.

Lemma lookup_delete_nodup (k : string) (m : list (string * A)) :
  NoDup (map fst m) -> lookup k (delete k m) = None.
Proof.
  induction m as [|[k' v'] m IH]; simpl; intros Hnd; [reflexivity|].
  inversion Hnd as [|? ? Hn Hnd']; subst.
  destruct (String.eqb k k') eqn:E; simpl.
  - apply String.eqb_eq in E; subst k'. now apply lookup_not_in.
  - rewrite E. now apply IH.
Qed.
End MoreMapFacts.

Section Steps.
Context {C D : Type}.

Lemma kept_refl (e : @entry C D) : kept e e.
Proof. destruct e; simpl; auto. Qed.

Lemma readEntry_loop_app (pe : bool) fp (e : @entry C D) (P Q : PathSegments) :
  readEntry_loop pe fp e (P ++ Q) =
  match readEntry_loop pe fp e P with
  | Return (Some e') => readEntry_loop pe fp e' Q
  | r => r
  end.
Proof.
  revert e. induction P as [|seg P IH]; intros e; [reflexivity|].
  destruct e as [f|n c d]; simpl; [now destruct pe|].
  destruct (lookup seg c); [apply IH|now destruct pe].
Qed.

(** Creating directories inside a new, empty directory always succeeds. *)
Lemma createDirectory_loop_fresh (pe : bool) (P : PathSegments) :
  snd (@createDirectory_loop C D pe true [] P) = Return true.
Proof.
  induction P as [|seg rest IH]; [reflexivity|]. simpl.
  destruct (createDirectory_loop pe true [] rest) as [c r] eqn:E.
  exact IH.
Qed.

Lemma writeFile_loop_fresh (pe : bool) cb full (P : PathSegments) :
  snd (@writeFile_loop C D pe true cb full [] P) = Return true.
Proof.
  induction P as [|seg rest IH]; [reflexivity|]. simpl.
  destruct (writeFile_loop pe true cb full [] rest) as [c r] eqn:E.
  destruct rest; [reflexivity|exact IH].
Qed.

Lemma createDirectory_loop_failed (pe r : bool) (P : PathSegments) :
  forall (c c' : list (string * @entry C D)) res,
  createDirectory_loop pe r c P = (c', res) -> res <> Return true -> c' = c.
Proof.
  induction P as [|seg rest IH]; intros c c' res H Hres.
  - injection H as <- <-. now destruct Hres.
  - simpl in H. destruct (lookup seg c) as [[f|n1 c1 d1]|] eqn:Hl.
    + now destruct pe; injection H as <- _.
    + destruct (createDirectory_loop pe r c1 rest) as [c1' r1] eqn:E.
      injection H as <- <-. rewrite (IH c1 c1' r1 E Hres).
      now apply set_lookup_same.
    + destruct r; [|now destruct pe; injection H as <- _].
      destruct (createDirectory_loop pe true [] rest) as [c1' r1] eqn:E.
      injection H as _ <-. pose proof (createDirectory_loop_fresh pe rest) as F.
      rewrite E in F. now destruct Hres.
Qed.

Lemma writeFile_loop_failed (pe r : bool) cb full (P : PathSegments) :
  forall (c c' : list (string * @entry C D)) res,
  writeFile_loop pe r cb full c P = (c', res) -> res <> Return true -> c' = c.
Proof.
  induction P as [|seg rest IH]; intros c c' res H Hres.
  - injection H as <- <-. now destruct Hres.
  - simpl in H. destruct (lookup seg c) as [[f|n1 c1 d1]|] eqn:Hl.
    + now destruct pe; injection H as <- _.
    + destruct (writeFile_loop pe r cb full c1 rest) as [c1' r1] eqn:E.
      injection H as <- <-. rewrite (IH c1 c1' r1 E Hres).
      now apply set_lookup_same.
    + destruct r; [|now destruct pe; injection H as <- _].
      destruct (writeFile_loop pe true cb full [] rest) as [c1' r1] eqn:E.
      pose proof (writeFile_loop_fresh pe cb full rest) as F.
      rewrite E in F. simpl in F.
      destruct rest; injection H as _ <-; now destruct Hres.
Qed.

Lemma remove_loop_failed (pe : bool) (P : PathSegments) :
  forall (c c' : list (string * @entry C D)) res,
  remove_loop pe c P = (c', res) -> res <> Return true -> c' = c.
Proof.
  induction P as [|seg rest IH]; intros c c' res H Hres.
  - injection H as <- <-. now destruct Hres.
  - simpl in H. destruct (lookup seg c) as [[f|n1 c1 d1]|] eqn:Hl.
    + now destruct pe; injection H as <- _.
    + destruct (remove_loop pe c1 rest) as [c1' r1] eqn:E.
      destruct rest; injection H as <- <-; [now destruct Hres|].
      rewrite (IH c1 c1' r1 E Hres). now apply set_lookup_same.
    + now destruct pe; injection H as <- _.
Qed.

Lemma createDirectory_loop_nonrecursive (pe : bool) (P : PathSegments) :
  forall c : list (string * @entry C D),
  fst (createDirectory_loop pe false c P) = c.
Proof.
  induction P as [|seg rest IH]; intros c; [reflexivity|]. simpl.
  destruct (lookup seg c) as [[f|n1 c1 d1]|] eqn:Hl; [now destruct pe| |now destruct pe].
  specialize (IH c1).
  destruct (createDirectory_loop pe false c1 rest) as [c1' r1].
  simpl in IH |- *. subst c1'. now apply set_lookup_same.
Qed.

Lemma writeFile_loop_nonrecursive (pe : bool) cb full (P : PathSegments) :
  forall c : list (string * @entry C D),
  fst (writeFile_loop pe false cb full c P) = c.
Proof.
  induction P as [|seg rest IH]; intros c; [reflexivity|]. simpl.
  destruct (lookup seg c) as [[f|n1 c1 d1]|] eqn:Hl; [now destruct pe| |now destruct pe].
  specialize (IH c1).
  destruct (writeFile_loop pe false cb full c1 rest) as [c1' r1].
  simpl in IH |- *. subst c1'. now apply set_lookup_same.
Qed.
End Steps.

Ltac kept_same Hr := eexists; split; [exact Hr|apply kept_refl].

Section Steps2.
Context {C D : Type}.

Lemma readEntry_loop_fullpath (fp fp' : PathSegments) (e : @entry C D) P :
  readEntry_loop false fp e P = readEntry_loop false fp' e P.
Proof.
  revert e. induction P as [|seg P IH]; intros e; [reflexivity|].
  destruct e as [f|n c d]; simpl; [reflexivity|].
  destruct (lookup seg c); [apply IH|reflexivity].
Qed.

Lemma createDirectory_loop_success (pe pe' r : bool) fp (P : PathSegments) :
  forall n0 (c0 c0' : list (string * @entry C D)) d0,
  createDirectory_loop pe r c0 P = (c0', Return true) ->
  exists n c d, readEntry_loop pe' fp (Directory n0 c0' d0) P
                = Return (Some (Directory n c d)).
Proof.
  induction P as [|seg rest IH]; intros n0 c0 c0' d0 H.
  - injection H as <-. do 3 eexists; reflexivity.
  - simpl in H. destruct (lookup seg c0) as [[f|n1 c1 d1]|] eqn:Hl.
    + destruct pe; inversion H.
    + destruct (createDirectory_loop pe r c1 rest) as [c1' r1] eqn:E.
      injection H as <- ->.
      rewrite readEntry_loop_cons_dir, lookup_set_eq. exact (IH n1 c1 c1' d1 E).
    + destruct r; [|destruct pe; inversion H].
      destruct (createDirectory_loop pe true [] rest) as [c1' r1] eqn:E.
      injection H as <- ->.
      rewrite readEntry_loop_cons_dir, lookup_set_eq. exact (IH seg [] c1' None E).
Qed.

Lemma createDirectory_loop_existing (pe r : bool) fp (P : PathSegments) :
  forall n0 (c0 : list (string * @entry C D)) d0 n c d,
  readEntry_loop false fp (Directory n0 c0 d0) P = Return (Some (Directory n c d)) ->
  createDirectory_loop pe r c0 P = (c0, Return true).
Proof.
  induction P as [|seg rest IH]; intros n0 c0 d0 n c d Hr; [reflexivity|].
  rewrite readEntry_loop_cons_dir in Hr.
  destruct (lookup seg c0) as [[f|n1 c1 d1]|] eqn:Hl; [| |discriminate].
  - now destruct (readEntry_loop_file_not_dir false fp f rest n c d).
  - simpl. rewrite Hl, (IH n1 c1 d1 n c d Hr). now rewrite set_lookup_same.
Qed.

Lemma createDirectory_loop_new (pe pe' r : bool) fp fp' (segs : PathSegments) :
  forall n0 (c0 c0' : list (string * @entry C D)) d0,
  segs <> [] ->
  readEntry_loop false fp (Directory n0 c0 d0) segs = Return None ->
  createDirectory_loop pe r c0 segs = (c0', Return true) ->
  readEntry_loop pe' fp' (Directory n0 c0' d0) segs
    = Return (Some (Directory (last segs "") [] None)).
Proof.
  induction segs as [|seg rest IH]; intros n0 c0 c0' d0 Hne Hr Hw;
    [contradiction|].
  rewrite readEntry_loop_cons_dir in Hr. simpl in Hw.
  destruct (lookup seg c0) as [[f|n1 c1 d1]|] eqn:Hl.
  - destruct pe; inversion Hw.
  - destruct (createDirectory_loop pe r c1 rest) as [c1' r1] eqn:E.
    injection Hw as <- ->.
    destruct rest as [|s rest']; [discriminate|].
    rewrite readEntry_loop_cons_dir, lookup_set_eq.
    exact (IH n1 c1 c1' d1 ltac:(discriminate) Hr E).
  - destruct r; [|destruct pe; inversion Hw].
    destruct (createDirectory_loop pe true [] rest) as [c1' r1] eqn:E.
    injection Hw as <- ->.
    rewrite readEntry_loop_cons_dir, lookup_set_eq.
    destruct rest as [|s rest'].
    + simpl in E. inversion E; subst; reflexivity.
    + exact (IH seg [] c1' None ltac:(discriminate) eq_refl E).
Qed.

Lemma createDirectory_loop_keeps (pe r : bool) fp (P : PathSegments) :
  forall n0 (c0 c0' : list (string * @entry C D)) d0 res Q e,
  createDirectory_loop pe r c0 P = (c0', res) ->
  readEntry_loop false fp (Directory n0 c0 d0) Q = Return (Some e) ->
  exists e', readEntry_loop false fp (Directory n0 c0' d0) Q = Return (Some e')
             /\ kept e e'.
Proof.
  induction P as [|seg rest IH]; intros n0 c0 c0' d0 res Q e H Hr.
  - injection H as <- _. kept_same Hr.
  - destruct Q as [|q Q'].
    { simpl in Hr. injection Hr as <-. eexists; split; [reflexivity|simpl; auto]. }
    rewrite readEntry_loop_cons_dir in Hr |- *.
    destruct (lookup q c0) as [eq|] eqn:Hq; [|discriminate].
    simpl in H. destruct (lookup seg c0) as [[f|n1 c1 d1]|] eqn:Hl.
    + destruct pe; injection H as <- _; rewrite Hq; kept_same Hr.
    + destruct (createDirectory_loop pe r c1 rest) as [c1' r1] eqn:E.
      injection H as <- _.
      destruct (String.eqb_spec q seg) as [->|Hne].
      * rewrite lookup_set_eq. rewrite Hl in Hq. injection Hq as <-.
        exact (IH n1 c1 c1' d1 r1 Q' e E Hr).
      * rewrite lookup_set_ne, Hq by exact Hne. kept_same Hr.
    + assert (Hne : q <> seg) by (intros ->; congruence).
      destruct r; [|destruct pe; injection H as <- _; rewrite Hq; kept_same Hr].
      destruct (createDirectory_loop pe true [] rest) as [c1' r1] eqn:E.
      injection H as <- _.
      rewrite !lookup_set_ne, Hq by exact Hne. kept_same Hr.
Qed.

Lemma writeFile_loop_keeps (pe r : bool) cb full fp (P : PathSegments) :
  forall n0 (c0 c0' : list (string * @entry C D)) d0 res Q e,
  writeFile_loop pe r cb full c0 P = (c0', res) ->
  readEntry_loop false fp (Directory n0 c0 d0) Q = Return (Some e) ->
  exists e', readEntry_loop false fp (Directory n0 c0' d0) Q = Return (Some e')
             /\ kept e e'.
Proof.
  induction P as [|seg rest IH]; intros n0 c0 c0' d0 res Q e H Hr.
  - injection H as <- _. kept_same Hr.
  - destruct Q as [|q Q'].
    { simpl in Hr. injection Hr as <-. eexists; split; [reflexivity|simpl; auto]. }
    rewrite readEntry_loop_cons_dir in Hr |- *.
    destruct (lookup q c0) as [eq|] eqn:Hq; [|discriminate].
    simpl in H. destruct (lookup seg c0) as [[f|n1 c1 d1]|] eqn:Hl.
    + destruct pe; injection H as <- _; rewrite Hq; kept_same Hr.
    + destruct (writeFile_loop pe r cb full c1 rest) as [c1' r1] eqn:E.
      injection H as <- _.
      destruct (String.eqb_spec q seg) as [->|Hne].
      * rewrite lookup_set_eq. rewrite Hl in Hq. injection Hq as <-.
        exact (IH n1 c1 c1' d1 r1 Q' e E Hr).
      * rewrite lookup_set_ne, Hq by exact Hne. kept_same Hr.
    + assert (Hne : q <> seg) by (intros ->; congruence).
      destruct r; [|destruct pe; injection H as <- _; rewrite Hq; kept_same Hr].
      destruct (writeFile_loop pe true cb full [] rest) as [c1' r1] eqn:E.
      destruct rest; injection H as <- _;
        rewrite !lookup_set_ne, Hq by exact Hne; kept_same Hr.
Qed.

Lemma remove_loop_keeps (pe : bool) fp (P : PathSegments) :
  forall n0 (c0 c0' : list (string * @entry C D)) d0 res Q e,
  remove_loop pe c0 P = (c0', res) ->
  ~ (exists R, Q = P ++ R) ->
  readEntry_loop false fp (Directory n0 c0 d0) Q = Return (Some e) ->
  exists e', readEntry_loop false fp (Directory n0 c0' d0) Q = Return (Some e')
             /\ kept e e'.
Proof.
  induction P as [|seg rest IH]; intros n0 c0 c0' d0 res Q e H Hnp Hr.
  - now destruct Hnp; exists Q.
  - destruct Q as [|q Q'].
    { simpl in Hr. injection Hr as <-. eexists; split; [reflexivity|simpl; auto]. }
    rewrite readEntry_loop_cons_dir in Hr |- *.
    destruct (lookup q c0) as [eq|] eqn:Hq; [|discriminate].
    simpl in H. destruct (lookup seg c0) as [[f|n1 c1 d1]|] eqn:Hl.
    + destruct pe; injection H as <- _; rewrite Hq; kept_same Hr.
    + destruct (remove_loop pe c1 rest) as [c1' r1] eqn:E.
      destruct (String.eqb_spec q seg) as [->|Hne].
      * destruct rest as [|s rest'].
        { now destruct Hnp; exists Q'. }
        injection H as <- _.
        rewrite lookup_set_eq. rewrite Hl in Hq. injection Hq as <-.
        refine (IH n1 c1 c1' d1 r1 Q' e E _ Hr).
        intros [R HR]; apply Hnp; exists R; now rewrite HR.
      * destruct rest; injection H as <- _;
          [rewrite lookup_delete_ne, Hq by exact Hne
          |rewrite lookup_set_ne, Hq by exact Hne]; kept_same Hr.
    + destruct pe; injection H as <- _; rewrite Hq; kept_same Hr.
Qed.

Lemma createDirectory_loop_modes (r : bool) (P : PathSegments) :
  forall c : list (string * @entry C D),
  fst (createDirectory_loop false r c P) = fst (createDirectory_loop true r c P) /\
  reports_alike (snd (createDirectory_loop false r c P))
                (snd (createDirectory_loop true r c P)).
Proof.
  induction P as [|seg rest IH]; intros c; [split; [reflexivity|alike]|].
  simpl. destruct (lookup seg c) as [[f|n1 c1 d1]|].
  - split; [reflexivity|alike].
  - specialize (IH c1).
    destruct (createDirectory_loop false r c1 rest) as [a1 b1],
             (createDirectory_loop true r c1 rest) as [a2 b2].
    simpl in *. destruct IH as [-> H]. now split.
  - destruct r; [|split; [reflexivity|alike]].
    specialize (IH []).
    destruct (createDirectory_loop false true [] rest) as [a1 b1],
             (createDirectory_loop true true [] rest) as [a2 b2].
    simpl in *. destruct IH as [-> H]. now split.
Qed.

Lemma writeFile_loop_modes (r : bool) cb full (P : PathSegments) :
  forall c : list (string * @entry C D),
  fst (writeFile_loop false r cb full c P) = fst (writeFile_loop true r cb full c P) /\
  reports_alike (snd (writeFile_loop false r cb full c P))
                (snd (writeFile_loop true r cb full c P)).
Proof.
  induction P as [|seg rest IH]; intros c; [split; [reflexivity|alike]|].
  simpl. destruct (lookup seg c) as [[f|n1 c1 d1]|].
  - split; [reflexivity|alike].
  - specialize (IH c1).
    destruct (writeFile_loop false r cb full c1 rest) as [a1 b1],
             (writeFile_loop true r cb full c1 rest) as [a2 b2].
    simpl in *. destruct IH as [-> H]. now split.
  - destruct r; [|split; [reflexivity|alike]].
    specialize (IH []).
    destruct (writeFile_loop false true cb full [] rest) as [a1 b1],
             (writeFile_loop true true cb full [] rest) as [a2 b2].
    simpl in *. destruct IH as [-> H].
    destruct rest; [split; [reflexivity|alike]|now split].
Qed.

Lemma remove_loop_modes (P : PathSegments) :
  forall c : list (string * @entry C D),
  fst (remove_loop false c P) = fst (remove_loop true c P) /\
  reports_alike (snd (remove_loop false c P)) (snd (remove_loop true c P)).
Proof.
  induction P as [|seg rest IH]; intros c; [split; [reflexivity|alike]|].
  simpl. destruct (lookup seg c) as [[f|n1 c1 d1]|].
  - split; [reflexivity|alike].
  - specialize (IH c1).
    destruct (remove_loop false c1 rest) as [a1 b1],
             (remove_loop true c1 rest) as [a2 b2].
    simpl in *. destruct IH as [-> H].
    destruct rest; [split; [reflexivity|alike]|now split].
  - split; [reflexivity|alike].
Qed.

Lemma readEntry_loop_modes fp (P : PathSegments) :
  forall e : @entry C D,
  reads_alike (readEntry_loop false fp e P) (readEntry_loop true fp e P).
Proof.
  induction P as [|seg rest IH]; intros e; [alike|].
  destruct e as [f|n c d]; simpl; [alike|].
  destruct (lookup seg c); [apply IH|alike].
Qed.
End Steps2.

Section EraseFacts.
Context {C D : Type}.

Lemma lookup_erase (k : string) (c : list (string * @entry C D)) :
  lookup k (erase_content c) = option_map erase_names (lookup k c).
Proof.
  induction c as [|[k' e'] c IH]; simpl; [reflexivity|].
  destruct (String.eqb k k'); [reflexivity|exact IH].
Qed.

Lemma set_erase (k : string) (e : @entry C D) c :
  erase_content (set k e c) = set k (erase_names e) (erase_content c).
Proof.
  induction c as [|[k' e'] c IH]; simpl; [reflexivity|].
  destruct (String.eqb k k'); simpl; [reflexivity|now f_equal].
Qed.

Lemma writeFile_index_loop_erase (pe r : bool) (v : option C) full
    (P : PathSegments) :
  forall c : list (string * @entry C D),
  writeFile_index_loop pe r v (erase_content c) P =
  let (c', res) := writeFile_loop pe r (set_content v) full c P in
  (erase_content c', rename_error "MiniFS.writeFile" res).
Proof.
  induction P as [|seg rest IH]; intros c; [reflexivity|].
  cbn [writeFile_index_loop writeFile_loop new_Directory]. rewrite lookup_erase.
  destruct (lookup seg c) as [[f|n1 c1 d1]|] eqn:Hl; cbn [option_map].
  - now destruct pe.
  - cbn [erase_names]. fold (erase_content c1). rewrite IH.
    destruct (writeFile_loop pe r (set_content v) full c1 rest) as [c1' r1].
    now rewrite set_erase.
  - destruct r; [|now destruct pe].
    pose proof (IH []) as IH0. cbn [erase_content map] in IH0.
    rewrite IH0.
    destruct (writeFile_loop pe true (set_content v) full [] rest) as [c1' r1].
    destruct rest.
    + now rewrite set_erase.
    + now rewrite !set_erase.
Qed.
End EraseFacts.

Section Glue.
Context {C D : Type}.

Lemma with_root_failed n (c : list (string * @entry C D)) d pe
    (body : list (string * @entry C D) -> list (string * @entry C D) * outcome bool) :
  (forall c' r, body c = (c', r) -> r <> Return true -> c' = c) ->
  snd (with_root (mkMiniFS (Directory n c d) pe) body) = Return true \/
  fst (with_root (mkMiniFS (Directory n c d) pe) body) = mkMiniFS (Directory n c d) pe.
Proof.
  intros Hb. unfold with_root; simpl.
  destruct (body c) as [c' r] eqn:E; simpl.
  destruct r as [[|]|err]; [now left| |]; right;
    now rewrite (Hb c' _ eq_refl ltac:(discriminate)).
Qed.

Lemma with_root_same n (c : list (string * @entry C D)) d pe {A : Type}
    (body : list (string * @entry C D) -> list (string * @entry C D) * outcome A) :
  fst (body c) = c ->
  fst (with_root (mkMiniFS (Directory n c d) pe) body) = mkMiniFS (Directory n c d) pe.
Proof.
  unfold with_root; simpl. destruct (body c) as [c' r]; simpl. now intros ->.
Qed.

Lemma with_root_modes n (c : list (string * @entry C D)) d
    (b0 b1 : list (string * @entry C D) -> list (string * @entry C D) * outcome bool) :
  fst (b0 c) = fst (b1 c) /\ reports_alike (snd (b0 c)) (snd (b1 c)) ->
  files (fst (with_root (mkMiniFS (Directory n c d) false) b0)) =
  files (fst (with_root (mkMiniFS (Directory n c d) true) b1)) /\
  reports_alike (snd (with_root (mkMiniFS (Directory n c d) false) b0))
                (snd (with_root (mkMiniFS (Directory n c d) true) b1)).
Proof.
  unfold with_root; simpl. destruct (b0 c), (b1 c); simpl.
  intros [-> H]. now split.
Qed.
End Glue.

Section UniqueFacts.
Context {C D : Type}.

Lemma keys_unique_dir n (c : list (string * @entry C D)) d :
  keys_unique (Directory n c d) <-> content_unique c.
Proof.
  unfold content_unique; simpl.
  split; intros [H1 H2]; split; try exact H1; clear H1;
    induction c as [|[k e] c IH]; simpl in *.
  - constructor.
  - destruct H2 as [He Hc]. constructor; [exact He|exact (IH Hc)].
  - exact I.
  - inversion H2; subst. split; [assumption|now apply IH].
Qed.

Lemma in_keys_set {A : Type} x k (v : A) m :
  In x (map fst (set k v m)) -> x = k \/ In x (map fst m).
Proof.
  induction m as [|[k' v'] m IH]; simpl.
  - intros [<-|[]]; now left.
  - destruct (String.eqb k k'); simpl; intros [<-|H]; auto.
    destruct (IH H); auto.
Qed.

Lemma set_content_unique k (e : @entry C D) c :
  content_unique c -> keys_unique e -> content_unique (set k e c).
Proof.
  unfold content_unique. intros [Hnd Hall] He.
  induction c as [|[k' e'] c IH]; simpl.
  - split; [constructor; [intros []|constructor]|constructor; auto].
  - inversion Hnd as [|? ? Hn Hnd']; subst. inversion Hall; subst.
    destruct (String.eqb k k') eqn:E; simpl.
    + split; [constructor; assumption|constructor; assumption].
    + destruct (IH Hnd' ltac:(assumption)) as [Hs1 Hs2].
      split; [|constructor; assumption].
      constructor; [|exact Hs1].
      intros Hin. destruct (in_keys_set _ _ _ _ Hin) as [->|Hin'].
      * now rewrite String.eqb_refl in E.
      * contradiction.
Qed.

Lemma delete_content_unique k (c : list (string * @entry C D)) :
  content_unique c -> content_unique (delete k c).
Proof.
  unfold content_unique. intros [Hnd Hall].
  induction c as [|[k' e'] c IH]; simpl; [split; constructor|].
  inversion Hnd as [|? ? Hn Hnd']; subst. inversion Hall; subst.
  destruct (String.eqb k k'); [now split|].
  destruct (IH Hnd' ltac:(assumption)) as [Hs1 Hs2].
  split; [|constructor; assumption]. constructor; [|exact Hs1].
  intros Hin; apply Hn. clear -Hin.
  induction c as [|[k'' e''] c IH]; simpl in *; [contradiction|].
  destruct (String.eqb k k''); simpl in *; [now right|].
  destruct Hin as [->|Hin]; [now left|right; auto].
Qed.

Lemma lookup_content_unique k (c : list (string * @entry C D)) e :
  content_unique c -> lookup k c = Some e -> keys_unique e.
Proof.
  intros [_ Hall]. induction c as [|[k' e'] c IH]; simpl; [discriminate|].
  inversion Hall; subst.
  destruct (String.eqb k k'); [intros H; injection H as <-; assumption|auto].
Qed.

Lemma content_unique_nil : content_unique (@nil (string * @entry C D)).
Proof. split; constructor. Qed.

Lemma createDirectory_loop_unique (pe r : bool) (P : PathSegments) :
  forall c : list (string * @entry C D),
  content_unique c -> content_unique (fst (createDirectory_loop pe r c P)).
Proof.
  induction P as [|seg rest IH]; intros c Hc; [exact Hc|]. simpl.
  destruct (lookup seg c) as [[f|n1 c1 d1]|] eqn:Hl.
  - now destruct pe.
  - pose proof (lookup_content_unique _ _ _ Hc Hl) as H1.
    apply keys_unique_dir in H1. specialize (IH c1 H1).
    destruct (createDirectory_loop pe r c1 rest) as [c1' r1]; simpl in *.
    apply set_content_unique; [exact Hc|now apply keys_unique_dir].
  - destruct r; [|now destruct pe].
    specialize (IH [] content_unique_nil).
    destruct (createDirectory_loop pe true [] rest) as [c1' r1]; simpl in *.
    apply set_content_unique; [|now apply keys_unique_dir].
    apply set_content_unique; [exact Hc|apply keys_unique_dir, content_unique_nil].
Qed.

Lemma writeFile_loop_unique (pe r : bool) cb full (P : PathSegments) :
  forall c : list (string * @entry C D),
  content_unique c -> content_unique (fst (writeFile_loop pe r cb full c P)).
Proof.
  induction P as [|seg rest IH]; intros c Hc; [exact Hc|]. simpl.
  destruct (lookup seg c) as [[f|n1 c1 d1]|] eqn:Hl.
  - now destruct pe.
  - pose proof (lookup_content_unique _ _ _ Hc Hl) as H1.
    apply keys_unique_dir in H1. specialize (IH c1 H1).
    destruct (writeFile_loop pe r cb full c1 rest) as [c1' r1]; simpl in *.
    apply set_content_unique; [exact Hc|now apply keys_unique_dir].
  - destruct r; [|now destruct pe].
    specialize (IH [] content_unique_nil).
    destruct (writeFile_loop pe true cb full [] rest) as [c1' r1]; simpl in *.
    destruct rest; simpl.
    + now apply set_content_unique.
    + apply set_content_unique; [|now apply keys_unique_dir].
      apply set_content_unique; [exact Hc|apply keys_unique_dir, content_unique_nil].
Qed.

Lemma remove_loop_unique (pe : bool) (P : PathSegments) :
  forall c : list (string * @entry C D),
  content_unique c -> content_unique (fst (remove_loop pe c P)).
Proof.
  induction P as [|seg rest IH]; intros c Hc; [exact Hc|]. simpl.
  destruct (lookup seg c) as [[f|n1 c1 d1]|] eqn:Hl.
  - now destruct pe.
  - pose proof (lookup_content_unique _ _ _ Hc Hl) as H1.
    apply keys_unique_dir in H1. specialize (IH c1 H1).
    destruct (remove_loop pe c1 rest) as [c1' r1]; simpl in *.
    destruct rest; simpl.
    + now apply delete_content_unique.
    + apply set_content_unique; [exact Hc|now apply keys_unique_dir].
  - now destruct pe.
Qed.

Lemma with_root_unique {A : Type} (fs : @MiniFS C D)
    (body : list (string * @entry C D) -> list (string * @entry C D) * outcome A) :
  (forall c, content_unique c -> content_unique (fst (body c))) ->
  keys_unique (files fs) -> keys_unique (files (fst (with_root fs body))).
Proof.
  intros Hb. unfold with_root. destruct fs as [[f|n c d] pe]; simpl; [auto|].
  intros Hu. specialize (Hb c (proj1 (keys_unique_dir n c d) Hu)).
  destruct (body c) as [c' r]; simpl in *. now apply keys_unique_dir.
Qed.

Lemma exec_keys_unique (fs : @MiniFS C D) (o : @op C D) :
  keys_unique (files fs) -> keys_unique (files (fst (exec fs o))).
Proof.
  intros Hu.
  destruct o as [p opts|p opts|p opts|p v opts|p cb opts|p|]; cbn [exec];
    try exact Hu.
  - destruct (createDirectory fs p opts) as [fs' r] eqn:E. simpl.
    change fs' with (fst (fs', r)). rewrite <- E.
    apply with_root_unique; [|exact Hu]. intros c; apply createDirectory_loop_unique.
  - destruct (writeFile fs p v opts) as [fs' r] eqn:E. simpl.
    change fs' with (fst (fs', r)). rewrite <- E.
    apply with_root_unique; [|exact Hu]. intros c; apply writeFile_loop_unique.
  - destruct (writeFileWithCallback fs p cb opts) as [fs' r] eqn:E. simpl.
    change fs' with (fst (fs', r)). rewrite <- E.
    apply with_root_unique; [|exact Hu]. intros c; apply writeFile_loop_unique.
  - destruct (remove fs p) as [fs' r] eqn:E. simpl.
    change fs' with (fst (fs', r)). rewrite <- E.
    apply with_root_unique; [|exact Hu]. intros c; apply remove_loop_unique.
Qed.

Lemma run_keys_unique (fs : @MiniFS C D) (ops : list (@op C D)) :
  keys_unique (files fs) -> Forall (fun s => keys_unique (files s)) (run fs ops).
Proof.
  revert fs. induction ops as [|o ops IH]; intros fs Hu; simpl.
  - now constructor.
  - constructor; [exact Hu|]. apply IH, exec_keys_unique, Hu.
Qed.
End UniqueFacts.

Section OrderFacts.
Context {A : Type}.

Lemma in_insert_by_index_l n kv (l : list (N * (string * A))) y :
  In y (insert_by_index n kv l) -> y = (n, kv) \/ In y l.
Proof.
  induction l as [|[m kv'] l IH]; simpl.
  - intros [<-|[]]; now left.
  - destruct (n <? m)%N; simpl.
    + intros [<-|H]; [now left|now right].
    + intros [<-|H]; [now right; left|]. destruct (IH H); auto.
Qed.

Lemma in_insert_by_index_r n kv (l : list (N * (string * A))) y :
  y = (n, kv) \/ In y l -> In y (insert_by_index n kv l).
Proof.
  induction l as [|[m kv'] l IH]; simpl.
  - intros [<-|[]]; now left.
  - destruct (n <? m)%N; simpl.
    + intros [<-|H]; [now left|now right].
    + intros [->|[<-|H]]; [right; apply IH; now left|now left|right; apply IH; now right].
Qed.

Lemma in_index_keyed_l (m : list (string * A)) n x :
  In (n, x) (index_keyed m) -> In x m.
Proof.
  induction m as [|[k v] m IH]; simpl; [intros []|].
  destruct (array_index k); [|auto].
  intros H. destruct (in_insert_by_index_l _ _ _ _ H) as [H'|H'];
    [injection H' as _ <-; now left|right; auto].
Qed.

Lemma in_index_keyed_r (m : list (string * A)) n x :
  In x m -> array_index (fst x) = Some n -> In (n, x) (index_keyed m).
Proof.
  induction m as [|[k v] m IH]; simpl; [intros []|].
  intros [<-|H] Hx.
  - simpl in Hx. rewrite Hx. apply in_insert_by_index_r. now left.
  - destruct (array_index k); [apply in_insert_by_index_r; right|]; auto.
Qed.

Lemma in_object_order (m : list (string * A)) x :
  In x (object_order m) <-> In x m.
Proof.
  unfold object_order, non_index. rewrite in_app_iff, filter_In, in_map_iff.
  split.
  - intros [([n x'] & <- & H)|[H _]]; [exact (in_index_keyed_l _ _ _ H)|exact H].
  - intros H. destruct (array_index (fst x)) as [n|] eqn:E.
    + left. exists (n, x). split; [reflexivity|]. now apply in_index_keyed_r.
    + right. now split.
Qed.

Lemma lookup_in (k : string) (v : A) (m : list (string * A)) :
  lookup k m = Some v -> In (k, v) m.
Proof.
  induction m as [|[k' v'] m IH]; simpl; [discriminate|].
  destruct (String.eqb k k') eqn:E; [|auto].
  apply String.eqb_eq in E; subst k'. intros H; injection H as <-. now left.
Qed.

Lemma in_lookup_nodup (k : string) (v : A) (m : list (string * A)) :
  NoDup (map fst m) -> In (k, v) m -> lookup k m = Some v.
Proof.
  induction m as [|[k' v'] m IH]; simpl; [intros _ []|].
  intros Hnd. inversion Hnd as [|? ? Hn Hnd']; subst.
  destruct (String.eqb k k') eqn:E.
  - apply String.eqb_eq in E; subst k'.
    intros [H|H]; [now injection H as <-|].
    destruct Hn. now apply (in_map fst) in H.
  - intros [H|H]; [injection H as -> _; now rewrite String.eqb_refl in E|auto].
Qed.
End OrderFacts.

Section WalkFacts.
Context {C D : Type}.

Lemma walk_entry_dir (pre : PathSegments) n (c : list (string * @entry C D)) d :
  walk_entry pre (Directory n c d) =
  concat (map snd (object_order
    (map (fun kv => (fst kv, (pre ++ [fst kv], snd kv)
                               :: walk_entry (pre ++ [fst kv]) (snd kv))) c))).
Proof.
  cbn [walk_entry]. f_equal. f_equal. f_equal.
  induction c as [|[k e] c IH]; simpl; [reflexivity|]. now rewrite IH.
Qed.

Lemma walk_entry_sound (e : @entry C D) :
  forall pre Q e', keys_unique e -> In (Q, e') (walk_entry pre e) ->
  exists R, Q = pre ++ R /\ R <> [] /\
    forall fp, readEntry_loop false fp e R = Return (Some e').
Proof.
  revert e. refine (entry_deep_ind _ _ _); [intros f pre Q e' _ []|].
  intros n c d Hall pre Q e' Hu Hin.
  apply keys_unique_dir in Hu as [Hnd Hallu].
  rewrite walk_entry_dir in Hin.
  apply in_concat in Hin as (l & Hl & Hin).
  apply in_map_iff in Hl as ([k blk] & <- & Hb).
  apply in_object_order, in_map_iff in Hb as ([name child] & Hkb & Hc).
  injection Hkb as <- <-. simpl in Hin.
  pose proof (in_lookup_nodup _ _ _ Hnd Hc) as Hl.
  destruct Hin as [Heq|Hin].
  - injection Heq as <- <-. exists [name].
    split; [reflexivity|split; [discriminate|]].
    intros fp. rewrite readEntry_loop_cons_dir, Hl. reflexivity.
  - rewrite Forall_forall in Hall, Hallu.
    destruct (Hall _ Hc (pre ++ [name]) Q e' (Hallu _ Hc) Hin)
      as (R & -> & Hne & Hr).
    exists (name :: R). split; [now rewrite <- app_assoc|split; [discriminate|]].
    intros fp. rewrite readEntry_loop_cons_dir, Hl. apply Hr.
Qed.

Lemma walk_entry_complete (R : PathSegments) :
  forall pre fp (e e' : @entry C D),
  R <> [] -> readEntry_loop false fp e R = Return (Some e') ->
  In (pre ++ R, e') (walk_entry pre e).
Proof.
  induction R as [|seg R IH]; intros pre fp e e' Hne H; [contradiction|].
  destruct e as [f|n c d]; [discriminate H|].
  rewrite readEntry_loop_cons_dir in H.
  destruct (lookup seg c) as [child|] eqn:Hl; [|discriminate].
  rewrite walk_entry_dir. apply in_concat.
  exists ((pre ++ [seg], child) :: walk_entry (pre ++ [seg]) child). split.
  - apply in_map_iff.
    exists (seg, (pre ++ [seg], child) :: walk_entry (pre ++ [seg]) child).
    split; [reflexivity|]. apply in_object_order, in_map_iff.
    exists (seg, child). split; [reflexivity|now apply lookup_in].
  - destruct R as [|s R].
    + simpl in H. injection H as <-. now left.
    + right. replace (pre ++ seg :: s :: R) with ((pre ++ [seg]) ++ s :: R)
        by now rewrite <- app_assoc.
      exact (IH (pre ++ [seg]) fp child e' ltac:(discriminate) H).
Qed.
End WalkFacts.

Section OldFacts.
Context {C D : Type}.

Lemma delete_erase (k : string) (c : list (string * @entry C D)) :
  erase_content (delete k c) = delete k (erase_content c).
Proof.
  induction c as [|[k' e'] c IH]; simpl; [reflexivity|].
  destruct (String.eqb k k'); simpl; [reflexivity|now f_equal].
Qed.

Lemma old_createDirectory_loop_erase (pe r : bool) (P : PathSegments) :
  forall c : list (string * @entry C D),
  old_createDirectory_loop pe r (erase_content c) P =
  let (c', res) := createDirectory_loop pe r c P in (erase_content c', res).
Proof.
  induction P as [|seg rest IH]; intros c; [reflexivity|].
  cbn [old_createDirectory_loop createDirectory_loop new_Directory].
  rewrite lookup_erase.
  destruct (lookup seg c) as [[f|n1 c1 d1]|] eqn:Hl; cbn [option_map].
  - now destruct pe.
  - cbn [erase_names]. fold (erase_content c1). rewrite IH.
    destruct (createDirectory_loop pe r c1 rest) as [c1' r1].
    now rewrite set_erase.
  - destruct r; [|now destruct pe].
    pose proof (IH []) as IH0. cbn [erase_content map] in IH0.
    rewrite IH0.
    destruct (createDirectory_loop pe true [] rest) as [c1' r1].
    now rewrite !set_erase.
Qed.

Lemma remove_loop_erase (pe : bool) (P : PathSegments) :
  forall c : list (string * @entry C D),
  remove_loop pe (erase_content c) P =
  let (c', res) := remove_loop pe c P in (erase_content c', res).
Proof.
  induction P as [|seg rest IH]; intros c; [reflexivity|].
  cbn [remove_loop]. rewrite lookup_erase.
  destruct (lookup seg c) as [[f|n1 c1 d1]|] eqn:Hl; cbn [option_map].
  - now destruct pe.
  - cbn [erase_names]. fold (erase_content c1).
    destruct rest as [|s rest']; [now rewrite delete_erase|].
    rewrite IH. destruct (remove_loop pe c1 (s :: rest')) as [c1' r1].
    now rewrite set_erase.
  - now destruct pe.
Qed.

Lemma old_readEntry_loop_erase (pe : bool) fp (P : PathSegments) :
  forall e : @entry C D,
  match readEntry_loop pe fp e P with
  | Return (Some e') => old_readEntry_loop pe (erase_names e) P = Return (Some (erase_names e'))
  | Return None => old_readEntry_loop pe (erase_names e) P = Return None
  | Throw _ => pe = true /\
      (old_readEntry_loop pe (erase_names e) P = Return None \/
       exists err, old_readEntry_loop pe (erase_names e) P = Throw err)
  end.
Proof.
  induction P as [|seg rest IH]; intros e; [reflexivity|].
  destruct e as [f|n c d]; cbn [readEntry_loop erase_names old_readEntry_loop].
  - destruct pe; [|now destruct (file_has_key seg)].
    split; [reflexivity|]. destruct (file_has_key seg); [right; eexists|left]; reflexivity.
  - fold (erase_content c). rewrite lookup_erase.
    destruct (lookup seg c) as [next|]; cbn [option_map].
    + specialize (IH next).
      destruct rest as [|s rest']; [exact IH|].
      destruct next as [g|n' c' d'].
      * cbn [erase_names]. destruct pe; simpl; [|reflexivity].
        split; [reflexivity|right; eexists; reflexivity].
      * exact IH.
    + destruct pe; [split; [reflexivity|now left]|reflexivity].
Qed.

Lemma map_values_keys {A B : Type} (g : A -> B) :
  forall m : list (string * A),
  map fst (map (fun kv => (fst kv, g (snd kv))) m) = map fst m.
Proof. induction m as [|[k v] m IH]; simpl; [reflexivity|now f_equal]. Qed.

Lemma insert_by_index_map {A B : Type} (g : A -> B) n k (v : A) l :
  insert_by_index n (k, g v) (map (fun nkv => (fst nkv, (fst (snd nkv), g (snd (snd nkv))))) l)
  = map (fun nkv => (fst nkv, (fst (snd nkv), g (snd (snd nkv))))) (insert_by_index n (k, v) l).
Proof.
  induction l as [|[m [k' v']] l IH]; simpl; [reflexivity|].
  destruct (n <? m)%N; simpl; [reflexivity|now f_equal].
Qed.

Lemma index_keyed_map {A B : Type} (g : A -> B) (m : list (string * A)) :
  index_keyed (map (fun kv => (fst kv, g (snd kv))) m) =
  map (fun nkv => (fst nkv, (fst (snd nkv), g (snd (snd nkv))))) (index_keyed m).
Proof.
  induction m as [|[k v] m IH]; simpl; [reflexivity|].
  destruct (array_index k); [|exact IH].
  rewrite IH. apply insert_by_index_map.
Qed.

Lemma object_keys_map_values {A B : Type} (g : A -> B) (m : list (string * A)) :
  object_keys (map (fun kv => (fst kv, g (snd kv))) m) = object_keys m.
Proof.
  unfold object_keys, object_order, non_index. rewrite !map_app. f_equal.
  - rewrite index_keyed_map. generalize (index_keyed m) as l.
    induction l as [|[n [k v]] l IH]; simpl; [reflexivity|now f_equal].
  - induction m as [|[k v] m IH]; simpl; [reflexivity|].
    destruct (array_index k); simpl; [exact IH|now f_equal].
Qed.
End OldFacts.

(** ** Properties of the code beyond the claims *)

Section Extras.
Context {C D : Type}.

(** X1: createDirectory, writeFile, writeFileWithCallback and remove either
    report success or hand back the store they were given unchanged. *)
Theorem failed_mutations_leave_store_unchanged n
    (c : list (string * @entry C D)) d (pe : bool) (p : Path) (v : option C)
    (cb : @file C D -> @file C D) (o : option WriteOptions) :
  let fs := mkMiniFS (Directory n c d) pe in
  (snd (createDirectory fs p o) = Return true \/ fst (createDirectory fs p o) = fs) /\
  (snd (writeFile fs p v o) = Return true \/ fst (writeFile fs p v o) = fs) /\
  (snd (writeFileWithCallback fs p cb o) = Return true \/
   fst (writeFileWithCallback fs p cb o) = fs) /\
  (snd (remove fs p) = Return true \/ fst (remove fs p) = fs).
Proof.
  cbv zeta. unfold createDirectory, writeFile, writeFileWithCallback, _writeFile, remove.
  repeat split; apply with_root_failed; intros c' r E.
  - apply (createDirectory_loop_failed _ _ _ _ _ _ E).
  - apply (writeFile_loop_failed _ _ _ _ _ _ _ _ E).
  - apply (writeFile_loop_failed _ _ _ _ _ _ _ _ E).
  - apply (remove_loop_failed _ _ _ _ _ E).
Qed.

(** X2: without [recursive: true], createDirectory, writeFile and
    writeFileWithCallback never change the store. *)
Theorem nonrecursive_writes_change_nothing (fs : @MiniFS C D) (p : Path)
    (v : option C) (cb : @file C D -> @file C D) (o : option WriteOptions) :
  recursive_of o = false ->
  fst (createDirectory fs p o) = fs /\ fst (writeFile fs p v o) = fs /\
  fst (writeFileWithCallback fs p cb o) = fs.
Proof.
  intros Ho. destruct fs as [[f|n c d] pe]; [repeat split|].
  unfold createDirectory, writeFile, writeFileWithCallback, _writeFile.
  change (truthy (spread_over true (option_map recursive_opt o))) with (recursive_of o).
  rewrite Ho. repeat split; apply with_root_same; simpl.
  - apply createDirectory_loop_nonrecursive.
  - apply writeFile_loop_nonrecursive.
  - apply writeFile_loop_nonrecursive.
Qed.

(** X3: after createDirectory reports success, readDirectory of the same
    path returns a list of names. *)
Theorem createDirectory_success_lists_path n (c : list (string * @entry C D))
    d (pe : bool) (p : Path) (o : option WriteOptions) (fs' : @MiniFS C D) :
  createDirectory (mkMiniFS (Directory n c d) pe) p o = (fs', Return true) ->
  exists names, readDirectory fs' p None = Return (Some (DirNames names)).
Proof.
  intros H. unfold createDirectory, with_root in H; simpl in H.
  destruct (createDirectory_loop pe _ c (pathAsSegments p)) as [c' r] eqn:E.
  injection H as <- ->.
  destruct (createDirectory_loop_success pe pe _ (pathAsSegments p)
              (pathAsSegments p) n c c' d E) as (n1 & c1 & d1 & Hr).
  unfold readDirectory, readEntry; simpl. rewrite Hr. eexists; reflexivity.
Qed.

(** X4: createDirectory on a path that already names a directory returns
    the store unchanged and reports success. *)
Theorem createDirectory_existing_directory_is_noop (root : @entry C D)
    (pe : bool) (p : Path) (o : option WriteOptions) n c d :
  readEntry (mkMiniFS root false) p = Return (Some (Directory n c d)) ->
  createDirectory (mkMiniFS root pe) p o = (mkMiniFS root pe, Return true).
Proof.
  unfold readEntry; simpl. intros H.
  destruct root as [f|n0 c0 d0].
  - now destruct (readEntry_loop_file_not_dir false _ f _ n c d H).
  - unfold createDirectory, with_root; simpl.
    now rewrite (createDirectory_loop_existing pe _ _ _ n0 c0 d0 n c d H).
Qed.

(** X5: when createDirectory creates a path that did not resolve, the
    created directory is empty. *)
Theorem createDirectory_fresh_path_lists_nothing (root : @entry C D)
    (pe : bool) (p : Path) (o : option WriteOptions) (fs' : @MiniFS C D) :
  pathAsSegments p <> [] ->
  readEntry (mkMiniFS root false) p = Return None ->
  createDirectory (mkMiniFS root pe) p o = (fs', Return true) ->
  readDirectory fs' p None = Return (Some (DirNames [])).
Proof.
  intros Hne Hr Hw.
  destruct root as [f|n0 c0 d0]; [discriminate Hw|].
  unfold createDirectory, with_root in Hw; simpl in Hw.
  destruct (createDirectory_loop pe _ c0 (pathAsSegments p)) as [c0' r] eqn:E.
  injection Hw as <- ->.
  unfold readEntry in Hr; simpl in Hr.
  unfold readDirectory, readEntry; simpl.
  rewrite (createDirectory_loop_new pe pe _ _ _ (pathAsSegments p) n0 c0 c0' d0
             Hne Hr E).
  reflexivity.
Qed.

(** X6: every entry that resolved before createDirectory, writeFile or
    writeFileWithCallback still resolves afterwards, a file unchanged and
    a directory with the same name and data. *)
Theorem writes_keep_existing_entries (root : @entry C D) (pe : bool) (p : Path)
    (v : option C) (cb : @file C D -> @file C D) (o : option WriteOptions)
    (Q : PathSegments) (e : @entry C D) :
  readEntry (mkMiniFS root false) (PSegs Q) = Return (Some e) ->
  let found (fs' : @MiniFS C D) :=
    exists e', readEntry (mkMiniFS (files fs') false) (PSegs Q) = Return (Some e')
               /\ kept e e' in
  found (fst (createDirectory (mkMiniFS root pe) p o)) /\
  found (fst (writeFile (mkMiniFS root pe) p v o)) /\
  found (fst (writeFileWithCallback (mkMiniFS root pe) p cb o)).
Proof.
  intros Hr found. unfold found.
  destruct root as [f|n0 c0 d0].
  { repeat split; (exists e; split; [exact Hr|apply kept_refl]). }
  unfold readEntry in Hr |- *; simpl in Hr |- *.
  unfold createDirectory, writeFile, writeFileWithCallback, _writeFile, with_root; simpl.
  repeat split.
  - destruct (createDirectory_loop pe _ c0 (pathAsSegments p)) as [c' r] eqn:E.
    exact (createDirectory_loop_keeps _ _ _ _ n0 c0 c' d0 r Q e E Hr).
  - destruct (writeFile_loop pe _ _ _ c0 (pathAsSegments p)) as [c' r] eqn:E.
    exact (writeFile_loop_keeps _ _ _ _ _ _ n0 c0 c' d0 r Q e E Hr).
  - destruct (writeFile_loop pe _ _ _ c0 (pathAsSegments p)) as [c' r] eqn:E.
    exact (writeFile_loop_keeps _ _ _ _ _ _ n0 c0 c' d0 r Q e E Hr).
Qed.

(** X7: remove keeps every entry whose path does not start with the removed
    path, a file unchanged and a directory with the same name and data. *)
Theorem remove_keeps_entries_outside (root : @entry C D) (pe : bool) (p : Path)
    (Q : PathSegments) (e : @entry C D) :
  ~ (exists R, Q = pathAsSegments p ++ R) ->
  readEntry (mkMiniFS root false) (PSegs Q) = Return (Some e) ->
  exists e', readEntry (mkMiniFS (files (fst (remove (mkMiniFS root pe) p))) false)
               (PSegs Q) = Return (Some e') /\ kept e e'.
Proof.
  intros Hnp Hr.
  destruct root as [f|n0 c0 d0].
  { exists e; split; [exact Hr|apply kept_refl]. }
  unfold readEntry in Hr |- *; simpl in Hr |- *.
  unfold remove, with_root; simpl.
  destruct (remove_loop pe c0 (pathAsSegments p)) as [c' r] eqn:E.
  exact (remove_loop_keeps _ _ _ n0 c0 c' d0 r Q e E Hnp Hr).
Qed.

(** X8: removing an existing directory succeeds and leaves no path below it
    resolvable. *)
Theorem remove_detaches_subtree (root : @entry C D) (pe : bool) (p : Path)
    (P : PathSegments) (k : string) n c d n' (c' : list (string * @entry C D)) d' :
  pathAsSegments p = P ++ [k] ->
  readEntry (mkMiniFS root false) (PSegs P) = Return (Some (Directory n c d)) ->
  lookup k c = Some (Directory n' c' d') ->
  NoDup (map fst c) ->
  exists fs', remove (mkMiniFS root pe) p = (fs', Return true) /\
    forall R, readEntry (mkMiniFS (files fs') false) (PSegs (P ++ k :: R))
              = Return None.
Proof.
  intros Hp Hr Hk Hnd.
  destruct (readEntry_root_directory root P n c d Hr)
    as (n0 & c0 & d0 & -> & Hr').
  destruct (remove_loop_directory pe false P P n0 c0 d0 n c d k n' c' d' Hr' Hk)
    as [c0' [Hrm Hrd]].
  unfold remove, with_root; simpl. rewrite Hp, Hrm.
  eexists; split; [reflexivity|]. intros R.
  unfold readEntry; simpl. rewrite readEntry_loop_app.
  rewrite (readEntry_loop_fullpath _ P), Hrd.
  rewrite readEntry_loop_cons_dir, lookup_delete_nodup by exact Hnd.
  reflexivity.
Qed.

(** X9: the store each mutation leaves is the same whether errors are
    thrown or reported as false, and success in one mode is success in the
    other. *)
Theorem mutation_error_modes_agree n (c : list (string * @entry C D)) d
    (p : Path) (v : option C) (cb : @file C D -> @file C D)
    (o : option WriteOptions) :
  let fs0 := mkMiniFS (Directory n c d) false in
  let fs1 := mkMiniFS (Directory n c d) true in
  (files (fst (createDirectory fs0 p o)) = files (fst (createDirectory fs1 p o)) /\
   reports_alike (snd (createDirectory fs0 p o)) (snd (createDirectory fs1 p o))) /\
  (files (fst (writeFile fs0 p v o)) = files (fst (writeFile fs1 p v o)) /\
   reports_alike (snd (writeFile fs0 p v o)) (snd (writeFile fs1 p v o))) /\
  (files (fst (writeFileWithCallback fs0 p cb o)) =
   files (fst (writeFileWithCallback fs1 p cb o)) /\
   reports_alike (snd (writeFileWithCallback fs0 p cb o))
                 (snd (writeFileWithCallback fs1 p cb o))) /\
  (files (fst (remove fs0 p)) = files (fst (remove fs1 p)) /\
   reports_alike (snd (remove fs0 p)) (snd (remove fs1 p))).
Proof.
  cbv zeta. unfold createDirectory, writeFile, writeFileWithCallback, _writeFile, remove.
  split; [|split; [|split]]; apply with_root_modes; simpl.
  - apply createDirectory_loop_modes.
  - apply writeFile_loop_modes.
  - apply writeFile_loop_modes.
  - apply remove_loop_modes.
Qed.

(** X10: readDirectory and readFile give the same value in both error modes
    where they succeed, and where the sentinel mode returns null the other
    throws. *)
Theorem read_error_modes_agree (root : @entry C D) (p : Path)
    (ro : option ReadOptions) :
  reads_alike (readDirectory (mkMiniFS root false) p ro)
              (readDirectory (mkMiniFS root true) p ro) /\
  reads_alike (readFile (mkMiniFS root false) p ro)
              (readFile (mkMiniFS root true) p ro).
Proof.
  unfold readDirectory, readFile, readEntry; simpl.
  destruct (readEntry_loop_modes (pathAsSegments p) (pathAsSegments p) root)
    as [(x & -> & ->)|(-> & err & ->)]; [|split; alike].
  destruct x as [f|n c d]; [destruct (fcontent f)|];
    destruct (returnEntry_of ro); split; alike.
Qed.

(** X11: the writeFile of the older class in src/src/index.ts acts as the
    current writeFile on stores without directory names, with errors
    thrown under its own name. *)
Theorem writeFile_index_matches_writeFile n (c : list (string * @entry C D)) d
    (pe : bool) (p : Path) (v : option C) (o : option WriteOptions) :
  let fs := mkMiniFS (Directory n c d) pe in
  writeFile_index (erase_fs fs) p v o =
  (erase_fs (fst (writeFile fs p v o)),
   rename_error "MiniFS.writeFile" (snd (writeFile fs p v o))).
Proof.
  cbv zeta. unfold writeFile_index, writeFile, _writeFile, with_root, erase_fs; simpl.
  change (map (fun kv => (fst kv, erase_names (snd kv))) c) with (erase_content c).
  rewrite (writeFile_index_loop_erase pe (recursive_of o) v (pathAsSegments p)).
  now destruct (writeFile_loop pe (recursive_of o) (set_content v)
                  (pathAsSegments p) c (pathAsSegments p)).
Qed.

(** X15: in every store reached from the constructor by a run of
    operations, no directory holds two entries under the same name. *)
Theorem reachable_stores_have_unique_names (o : option MiniFSOptions)
    (ops : list (@op C D)) :
  Forall (fun s => keys_unique (files s)) (run (new_MiniFS o) ops).
Proof.
  apply run_keys_unique. split; constructor.
Qed.

(** X12: in every store reached by a run of operations, walk lists exactly
    the non-empty paths that resolve, each with its entry. *)
Theorem walk_lists_resolvable_paths (o : option MiniFSOptions)
    (ops : list (@op C D)) (fs : @MiniFS C D) (Q : PathSegments)
    (e : @entry C D) :
  In fs (run (new_MiniFS o) ops) ->
  (In (Q, e) (walk fs) <->
   Q <> [] /\ readEntry (mkMiniFS (files fs) false) (PSegs Q) = Return (Some e)).
Proof.
  intros Hin.
  assert (Hu : keys_unique (files fs)).
  { pose proof (run_keys_unique (new_MiniFS o) ops ltac:(split; constructor)) as H.
    rewrite Forall_forall in H. exact (H fs Hin). }
  unfold walk, readEntry; simpl. split.
  - intros H. destruct (walk_entry_sound (files fs) [] Q e Hu H)
      as (R & -> & Hne & Hr).
    split; [exact Hne|apply Hr].
  - intros [Hne Hr]. exact (walk_entry_complete Q [] Q (files fs) e Hne Hr).
Qed.

(** X13: createDirectory and remove of the oldest class act as the current
    ones on stores without directory names. *)
Theorem old_mutations_match_current n (c : list (string * @entry C D)) d
    (pe : bool) (p : Path) (o : option WriteOptions) :
  let fs := mkMiniFS (Directory n c d) pe in
  old_createDirectory (erase_fs fs) p o =
    (erase_fs (fst (createDirectory fs p o)), snd (createDirectory fs p o)) /\
  remove (erase_fs fs) p = (erase_fs (fst (remove fs p)), snd (remove fs p)).
Proof.
  cbv zeta. unfold old_createDirectory, createDirectory, remove, with_root, erase_fs.
  change (truthy (spread_over true (option_map recursive_opt o))) with (recursive_of o).
  simpl. change (map (fun kv => (fst kv, erase_names (snd kv))) c) with (erase_content c).
  rewrite old_createDirectory_loop_erase, remove_loop_erase.
  split.
  - now destruct (createDirectory_loop pe (recursive_of o) c (pathAsSegments p)).
  - now destruct (remove_loop pe c (pathAsSegments p)).
Qed.

(** X14: readDirectory and readFile of the oldest class return what the
    current ones return, up to directory names, wherever neither throws;
    one throws exactly when the other does. *)
Theorem old_reads_match_current (root : @entry C D) (pe : bool) (p : Path)
    (ro : option ReadOptions) :
  let fs := mkMiniFS root pe in
  agrees_modulo_errors (option_map erase_dir_result)
    (readDirectory fs p ro) (old_readDirectory (erase_fs fs) p ro) /\
  agrees_modulo_errors (option_map erase_file_result)
    (readFile fs p ro) (old_readFile (erase_fs fs) p ro).
Proof.
  cbv zeta.
  unfold readDirectory, readFile, old_readDirectory, old_readFile, readEntry,
    old_readEntry, erase_fs.
  cbn [files preferErrors].
  pose proof (old_readEntry_loop_erase pe (pathAsSegments p) (pathAsSegments p) root)
    as H.
  destruct (readEntry_loop pe (pathAsSegments p) root (pathAsSegments p))
    as [[e'|]|err].
  - rewrite H. destruct e' as [f|n c d]; cbn [erase_names].
    + destruct (fcontent f), pe, (returnEntry_of ro); split; reflexivity.
    + fold (erase_content c). unfold erase_content.
      rewrite object_keys_map_values.
      destruct pe, (returnEntry_of ro); split; reflexivity.
  - rewrite H. destruct pe; split; reflexivity.
  - destruct H as [-> [H|[err' H]]]; rewrite H; split; exact I.
Qed.

End Extras.

(** ** Concrete runs for the properties above *)

Definition content_ab : list (string * @entry nat unit) :=
  [("a", Directory "a" [("x.txt", File (mkFile "x.txt" (Some 1) None))] None);
   ("b", Directory "b" [] None)].

Definition root_ab : @entry nat unit := Directory "" content_ab None.

Lemma nonrecursive_writes_change_nothing_witness :
  let fs := mkMiniFS root_ab false in
  let o := Some {| recursive_opt := Defined false |} in
  recursive_of o = false /\
  fst (createDirectory fs (PStr "c/y.txt") o) = fs /\
  fst (writeFile fs (PStr "c/y.txt") (Some 2) o) = fs /\
  fst (writeFileWithCallback fs (PStr "c/y.txt") (set_content (Some 2)) o) = fs.
Proof.
  intros fs o. split; [reflexivity|].
  exact (nonrecursive_writes_change_nothing fs (PStr "c/y.txt") (Some 2)
           (set_content (Some 2)) o eq_refl).
Defined.

Lemma createDirectory_success_lists_path_witness :
  let fs' := fst (createDirectory (mkMiniFS root_ab false) (PStr "a/d/e") None) in
  createDirectory (mkMiniFS root_ab false) (PStr "a/d/e") None = (fs', Return true) /\
  exists names, readDirectory fs' (PStr "a/d/e") None = Return (Some (DirNames names)).
Proof.
  intros fs'. split; [reflexivity|].
  exact (createDirectory_success_lists_path "" content_ab None false (PStr "a/d/e") None fs'
           eq_refl).
Defined.

Lemma createDirectory_existing_directory_is_noop_witness :
  readEntry (mkMiniFS root_ab false) (PStr "a")
    = Return (Some (Directory "a" [("x.txt", File (mkFile "x.txt" (Some 1) None))] None)) /\
  createDirectory (mkMiniFS root_ab true) (PStr "a") None
    = (mkMiniFS root_ab true, Return true).
Proof.
  split; [reflexivity|].
  exact (createDirectory_existing_directory_is_noop root_ab true (PStr "a") None
           "a" _ None eq_refl).
Defined.

Lemma createDirectory_fresh_path_lists_nothing_witness :
  let fs' := fst (createDirectory (mkMiniFS root_ab false) (PStr "b/c/d") None) in
  pathAsSegments (PStr "b/c/d") <> [] /\
  readEntry (mkMiniFS root_ab false) (PStr "b/c/d") = Return None /\
  createDirectory (mkMiniFS root_ab false) (PStr "b/c/d") None = (fs', Return true) /\
  readDirectory fs' (PStr "b/c/d") None = Return (Some (DirNames [])).
Proof.
  intros fs'. split; [discriminate|split; [reflexivity|split; [reflexivity|]]].
  exact (createDirectory_fresh_path_lists_nothing root_ab false (PStr "b/c/d") None fs'
           ltac:(discriminate) eq_refl eq_refl).
Defined.

(** A callback that sets the data slot and leaves the content undefined. *)
Lemma writes_keep_existing_entries_witness :
  readEntry (mkMiniFS root_ab false) (PSegs ["a"; "x.txt"])
    = Return (Some (File (mkFile "x.txt" (Some 1) None))) /\
  exists e', readEntry (mkMiniFS (files (fst (writeFile (mkMiniFS root_ab false)
                (PStr "a/z.txt") (Some 5) None))) false) (PSegs ["a"; "x.txt"])
             = Return (Some e') /\ kept (File (mkFile "x.txt" (Some 1) None)) e'.
Proof.
  split; [reflexivity|].
  exact (proj1 (proj2 (writes_keep_existing_entries root_ab false (PStr "a/z.txt")
           (Some 5) (set_content (Some 5)) None ["a"; "x.txt"] _ eq_refl))).
Defined.

Lemma remove_keeps_entries_outside_witness :
  ~ (exists R, ["b"] = pathAsSegments (PStr "a") ++ R) /\
  readEntry (mkMiniFS root_ab false) (PSegs ["b"])
    = Return (Some (Directory "b" [] None)) /\
  exists e', readEntry (mkMiniFS (files (fst (remove (mkMiniFS root_ab false) (PStr "a"))))
               false) (PSegs ["b"]) = Return (Some e') /\
             kept (Directory "b" [] None) e'.
Proof.
  assert (Hnp : ~ (exists R, ["b"] = pathAsSegments (PStr "a") ++ R))
    by (intros [R HR]; discriminate HR).
  split; [exact Hnp|split; [reflexivity|]].
  exact (remove_keeps_entries_outside root_ab false (PStr "a") ["b"] _ Hnp eq_refl).
Defined.

Lemma remove_detaches_subtree_witness :
  let c := [("a", Directory "a" [("x.txt", @File nat unit (mkFile "x.txt" (Some 1) None))] None);
            ("b", Directory "b" [] None)] in
  pathAsSegments (PStr "a") = [] ++ ["a"] /\
  readEntry (mkMiniFS root_ab false) (PSegs []) = Return (Some (Directory "" c None)) /\
  lookup "a" c = Some (Directory "a" [("x.txt", File (mkFile "x.txt" (Some 1) None))] None) /\
  NoDup (map fst c) /\
  exists fs', remove (mkMiniFS root_ab false) (PStr "a") = (fs', Return true) /\
    forall R, readEntry (mkMiniFS (files fs') false) (PSegs ([] ++ "a" :: R)) = Return None.
Proof.
  intros c.
  assert (Hnd : NoDup (map fst c)).
  { simpl. constructor; [simpl; intros [H|[]]; discriminate H|].
    constructor; [intros []|constructor]. }
  split; [reflexivity|split; [reflexivity|split; [reflexivity|split; [exact Hnd|]]]].
  exact (remove_detaches_subtree root_ab false (PStr "a") [] "a" "" c None "a" _ None
           eq_refl eq_refl eq_refl Hnd).
Defined.

Lemma walk_lists_resolvable_paths_witness :
  let ops := [@OpWriteFile nat unit (PStr "foo/bar/baz.txt") (Some 1) None] in
  let fs := fst (exec (new_MiniFS None) (OpWriteFile (PStr "foo/bar/baz.txt") (Some 1) None)) in
  In fs (run (new_MiniFS None) ops) /\
  (In (["foo"; "bar"],
       Directory "bar" [("baz.txt", File (mkFile "baz.txt" (Some 1) None))] None) (walk fs) <->
   ["foo"; "bar"] <> [] /\
   readEntry (mkMiniFS (files fs) false) (PSegs ["foo"; "bar"])
   = Return (Some (Directory "bar" [("baz.txt", File (mkFile "baz.txt" (Some 1) None))] None))).
Proof.
  intros ops fs.
  assert (Hin : In fs (run (new_MiniFS None) ops)) by (right; left; reflexivity).
  split; [exact Hin|].
  exact (walk_lists_resolvable_paths None ops fs _ _ Hin).
Defined.

(** The walk of the test in [src/index.ts]: "foo", "foo/bar",
    "foo/bar/baz.txt", in pre-order. *)
Example walk_of_nested_file :
  map fst (walk (fst (writeFile (@new_MiniFS nat unit None) (PStr "foo/bar/baz.txt")
                        (Some 1) None)))
  = [["foo"]; ["foo"; "bar"]; ["foo"; "bar"; "baz.txt"]].
Proof. reflexivity. Qed.
